(** * shell-gpt: function executors, schemas and the orchestration core

    A shallow embedding of [sgpt/llm_functions/common/execute_shell.py] and
    [sgpt/llm_functions/mac/apple_script.py], together with the parts of the
    Python runtime they call ([subprocess], [bytes.decode], [str.strip],
    f-strings, pydantic's [model_json_schema]), followed by a model of the
    orchestration core (role binding, session store, completion cache, REPL
    block reader) as the specification describes it. *)

From Stdlib Require Import ZArith NArith String Ascii DecimalString.
From Stdlib.Strings Require Import Byte.
From stdpp Require Import base option list strings gmap.

Local Open Scope string_scope.
Local Open Scope list_scope.
Local Open Scope N_scope.

(** ** Python values *)

(** A Python [str] is a sequence of Unicode code points, a [bytes] object a
    sequence of octets. *)
Definition codepoint := N.
Definition pystr := list codepoint.
Definition bytes := list Byte.byte.

(** Source literals are ASCII; [lit] gives the [str] a literal denotes. *)
Fixpoint lit (s : string) : pystr :=
  match s with
  | EmptyString => []
  | String c s' => N_of_ascii c :: lit s'
  end.

(** The [bytes] object an ASCII literal [b"..."] denotes. *)
Definition ascii_bytes (s : string) : bytes := list_byte_of_string s.

Definition nl : string := String "010"%char EmptyString.
Definition dquote : string := String "034"%char EmptyString.

(** [str(n)] for an [int]. *)
Definition str_of_int (z : Z) : pystr := lit (NilZero.string_of_int (Z.to_int z)).

(** The two lowercase hexadecimal digits of [%02x]. *)
Definition hex_digit (d : N) : codepoint :=
  if d <? 10 then 48 + d else 87 + d.

Definition hex02 (b : Byte.byte) : pystr :=
  [hex_digit (Byte.to_N b / 16); hex_digit (Byte.to_N b mod 16)].

(** *** Exceptions

    An exception value is its class, the text [str(e)] gives, and whether the
    class derives from [Exception] (what a clause [except Exception] catches)
    or only from [BaseException] ([KeyboardInterrupt], [SystemExit]). *)
Record pyexn := mk_exn {
  exn_class : string;
  exn_str : pystr;
  exn_is_Exception : bool
}.

Inductive outcome (A : Type) : Type :=
| Returned (a : A)
| Raised (e : pyexn).
Arguments Returned {A} a.
Arguments Raised {A} e.

Definition bind {A B} (k : A -> outcome B) (m : outcome A) : outcome B :=
  match m with
  | Returned a => k a
  | Raised e => Raised e
  end.

#[global] Instance outcome_ret : MRet outcome := @Returned.
#[global] Instance outcome_bind : MBind outcome := @bind.

(** [try: body except Exception as e: handler(e)]. *)
Definition try_except_Exception {A} (body : outcome A) (handler : pyexn -> outcome A)
  : outcome A :=
  match body with
  | Returned a => Returned a
  | Raised e => if exn_is_Exception e then handler e else Raised e
  end.

(** *** [bytes.decode("utf-8")], strict error handler *)

Inductive decode_result :=
| Decoded (s : pystr)
| DecodeError (start stop : N) (reason : string).

Definition is_continuation (b : N) : bool := (128 <=? b) && (b <=? 191).

Definition octets (bs : bytes) : list N := map Byte.to_N bs.

Definition emit (c : codepoint) (r : decode_result) : decode_result :=
  match r with
  | Decoded s => Decoded (c :: s)
  | DecodeError a b m => DecodeError a b m
  end.

Definition invalid_start : string := "invalid start byte".
Definition invalid_continuation : string := "invalid continuation byte".
Definition unexpected_end : string := "unexpected end of data".

(** The decoder reads one scalar value at a time; [pos] is the offset of the
    first octet of [bs] in the whole object.  Overlong forms, surrogates and
    values above U+10FFFF are rejected at the second octet. *)
Fixpoint utf8_decode_at (pos : N) (bs : list N) : decode_result :=
  match bs with
  | [] => Decoded []
  | b0 :: t0 =>
    if b0 <? 128 then emit b0 (utf8_decode_at (pos + 1) t0)
    else if b0 <? 194 then DecodeError pos (pos + 1) invalid_start
    else if b0 <? 224 then
      match t0 with
      | [] => DecodeError pos (pos + 1) unexpected_end
      | b1 :: t1 =>
        if is_continuation b1
        then emit ((b0 - 192) * 64 + (b1 - 128)) (utf8_decode_at (pos + 2) t1)
        else DecodeError pos (pos + 1) invalid_continuation
      end
    else if b0 <? 240 then
      match t0 with
      | [] => DecodeError pos (pos + 1) unexpected_end
      | b1 :: t1 =>
        if negb (is_continuation b1)
           || (if b1 <? 160 then b0 =? 224 else b0 =? 237)
        then DecodeError pos (pos + 1) invalid_continuation
        else
          match t1 with
          | [] => DecodeError pos (pos + 2) unexpected_end
          | b2 :: t2 =>
            if is_continuation b2
            then emit ((b0 - 224) * 4096 + (b1 - 128) * 64 + (b2 - 128))
                      (utf8_decode_at (pos + 3) t2)
            else DecodeError pos (pos + 2) invalid_continuation
          end
      end
    else if b0 <? 245 then
      match t0 with
      | [] => DecodeError pos (pos + 1) unexpected_end
      | b1 :: t1 =>
        if negb (is_continuation b1)
           || (if b1 <? 144 then b0 =? 240 else b0 =? 244)
        then DecodeError pos (pos + 1) invalid_continuation
        else
          match t1 with
          | [] => DecodeError pos (pos + 2) unexpected_end
          | b2 :: t2 =>
            if negb (is_continuation b2)
            then DecodeError pos (pos + 2) invalid_continuation
            else
              match t2 with
              | [] => DecodeError pos (pos + 3) unexpected_end
              | b3 :: t3 =>
                if is_continuation b3
                then emit ((b0 - 240) * 262144 + (b1 - 128) * 4096
                           + (b2 - 128) * 64 + (b3 - 128))
                          (utf8_decode_at (pos + 4) t3)
                else DecodeError pos (pos + 3) invalid_continuation
              end
          end
      end
    else DecodeError pos (pos + 1) invalid_start
  end.

Definition utf8_decode (bs : bytes) : decode_result := utf8_decode_at 0 (octets bs).

(** [str(e)] of the [UnicodeDecodeError] raised for octets [start..stop) of
    [obj]. *)
Definition decode_error_str (obj : bytes) (start stop : N) (reason : string) : pystr :=
  if (start <? N.of_nat (length obj)) && (stop =? start + 1)
  then lit "'utf-8' codec can't decode byte 0x"
       ++ hex02 (nth (N.to_nat start) obj Byte.x00)
       ++ lit " in position " ++ str_of_int (Z.of_N start)
       ++ lit ": " ++ lit reason
  else lit "'utf-8' codec can't decode bytes in position "
       ++ str_of_int (Z.of_N start) ++ lit "-" ++ str_of_int (Z.of_N stop - 1)
       ++ lit ": " ++ lit reason.

Definition UnicodeDecodeError (obj : bytes) (start stop : N) (reason : string) : pyexn :=
  mk_exn "UnicodeDecodeError" (decode_error_str obj start stop reason) true.

Definition decode (b : bytes) : outcome pystr :=
  match utf8_decode b with
  | Decoded s => Returned s
  | DecodeError start stop reason => Raised (UnicodeDecodeError b start stop reason)
  end.

(** *** [str.strip()]

    Without an argument [strip] removes the characters for which
    [str.isspace] holds. *)
Definition isspace (c : codepoint) : bool :=
  ((9 <=? c) && (c <=? 13)) || ((28 <=? c) && (c <=? 32))
  || (c =? 133) || (c =? 160) || (c =? 5760)
  || ((8192 <=? c) && (c <=? 8202))
  || (c =? 8232) || (c =? 8233) || (c =? 8239) || (c =? 8287) || (c =? 12288).

Fixpoint lstrip (s : pystr) : pystr :=
  match s with
  | [] => []
  | c :: s' => if isspace c then lstrip s' else s
  end.

Definition rstrip (s : pystr) : pystr := rev (lstrip (rev s)).

Definition strip (s : pystr) : pystr := rstrip (lstrip s).

(** ** [subprocess]

    What a command does on the machine is not fixed by the program: it is a
    parameter [host].  Starting a child either raises (no such program, an
    embedded null character, no more processes) or yields a child, which
    writes chunks to its standard output and standard error in some order and
    exits with a return code; waiting for it may itself raise. *)
Inductive stream := fd_stdout | fd_stderr.

#[global] Instance stream_eq_dec : EqDecision stream.
Proof. solve_decision. Defined.

Record child := mk_child {
  child_writes : list (stream * bytes);
  child_communicate_error : option pyexn;
  child_returncode : Z
}.

(** [Shell cmd] is [Popen(cmd, shell=True)]: the string is handed to the host
    shell.  [Argv l] is [Popen(l)]: the program [l[0]] is executed directly. *)
Inductive popen_args :=
| Shell (cmd : pystr)
| Argv (argv : list pystr).

Record host := mk_host {
  host_spawn : popen_args -> pyexn + child
}.

(** [subprocess.PIPE], [subprocess.STDOUT], and [None] (inherit). *)
Inductive redirect := PIPE | STDOUT | inherit.

Record Popen_object := mk_Popen {
  popen_child : child;
  popen_stdout : redirect;
  popen_stderr : redirect
}.

Definition Popen (h : host) (args : popen_args) (stdout stderr : redirect)
  : outcome Popen_object :=
  match host_spawn h args with
  | inl e => Raised e
  | inr c => Returned (mk_Popen c stdout stderr)
  end.

(** The octets that arrive in the pipe of standard output: what the child
    wrote to standard output and, under [stderr=STDOUT], what it wrote to
    standard error, in the order of the writes. *)
Fixpoint stdout_pipe (stderr : redirect) (ws : list (stream * bytes)) : bytes :=
  match ws with
  | [] => []
  | (fd_stdout, b) :: ws' => b ++ stdout_pipe stderr ws'
  | (fd_stderr, b) :: ws' =>
    match stderr with
    | STDOUT => b ++ stdout_pipe stderr ws'
    | _ => stdout_pipe stderr ws'
    end
  end.

Fixpoint stderr_pipe (ws : list (stream * bytes)) : bytes :=
  match ws with
  | [] => []
  | (fd_stderr, b) :: ws' => b ++ stderr_pipe ws'
  | (fd_stdout, _) :: ws' => stderr_pipe ws'
  end.

(** [process.communicate()]: a pair, each component [None] unless that stream
    was redirected to a pipe. *)
Definition communicate (p : Popen_object) : outcome (option bytes * option bytes) :=
  match child_communicate_error (popen_child p) with
  | Some e => Raised e
  | None =>
    Returned
      (match popen_stdout p with
       | PIPE => Some (stdout_pipe (popen_stderr p) (child_writes (popen_child p)))
       | _ => None
       end,
       match popen_stderr p with
       | PIPE => Some (stderr_pipe (child_writes (popen_child p)))
       | _ => None
       end)
  end.

Definition returncode (p : Popen_object) : Z := child_returncode (popen_child p).

Definition AttributeError_decode : pyexn :=
  mk_exn "AttributeError" (lit "'NoneType' object has no attribute 'decode'") true.

(** [output.decode()] where [output] is a component of [communicate()]. *)
Definition output_decode (output : option bytes) : outcome pystr :=
  match output with
  | Some b => decode b
  | None => Raised AttributeError_decode
  end.

(** ** JSON-like values and pydantic's [model_json_schema]

    A Python [dict] keeps insertion order: an association list.  Keys are
    ASCII identifiers. *)
#[warnings="-register-all"] Inductive json :=
| JStr (s : pystr)
| JList (l : list json)
| JDict (d : list (string * json)).

(** [d.get(key, default)]. *)
Fixpoint dict_get (d : list (string * json)) (key : string) (default : json) : json :=
  match d with
  | [] => default
  | (k, v) :: d' => if String.eqb k key then v else dict_get d' key default
  end.

Definition get (j : json) (key : string) (default : json) : json :=
  match j with
  | JDict d => dict_get d key default
  | _ => default
  end.

(** A field of a model class: its name, the JSON type of its annotation,
    whether its default is [...] (required), the [description] and the other
    keyword arguments given to [Field]. *)
Record FieldInfo := mk_field {
  field_name : string;
  field_type : string;
  field_required : bool;
  field_description : option string;
  field_extra : list (string * json)
}.

(** A class deriving from [BaseModel]: its [__doc__] and declared fields. *)
Record ModelClass := mk_model {
  model_name : string;
  model_doc : option string;
  model_fields : list FieldInfo
}.

Definition is_lower (c : ascii) : bool :=
  let n := nat_of_ascii c in (97 <=? n)%nat && (n <=? 122)%nat.
Definition is_upper (c : ascii) : bool :=
  let n := nat_of_ascii c in (65 <=? n)%nat && (n <=? 90)%nat.
Definition to_upper (c : ascii) : ascii :=
  if is_lower c then ascii_of_nat (nat_of_ascii c - 32) else c.
Definition to_lower (c : ascii) : ascii :=
  if is_upper c then ascii_of_nat (nat_of_ascii c + 32) else c.

(** [str.title()] on ASCII text; [prev_cased] tells whether the previous
    character was a letter. *)
Fixpoint title_from (prev_cased : bool) (s : string) : string :=
  match s with
  | EmptyString => EmptyString
  | String c s' =>
    let cased := is_lower c || is_upper c in
    String (if prev_cased then to_lower c else to_upper c) (title_from cased s')
  end.

Fixpoint replace_char (a b : ascii) (s : string) : string :=
  match s with
  | EmptyString => EmptyString
  | String c s' => String (if Ascii.eqb c a then b else c) (replace_char a b s')
  end.

(** The title pydantic gives a field: [name.title().replace('_', ' ')]. *)
Definition field_title (name : string) : string :=
  replace_char "_" " " (title_from false name).

(** Schemas are emitted with their keys sorted. *)
Fixpoint insert_sorted (kv : string * json) (d : list (string * json))
  : list (string * json) :=
  match d with
  | [] => [kv]
  | kv' :: d' =>
    if String.leb (fst kv) (fst kv') then kv :: d else kv' :: insert_sorted kv d'
  end.

Definition sort_keys (d : list (string * json)) : list (string * json) :=
  foldr insert_sorted [] d.

Definition field_schema (f : FieldInfo) : json :=
  JDict (sort_keys
    ([("type", JStr (lit (field_type f)));
      ("title", JStr (lit (field_title (field_name f))))]
     ++ match field_description f with
        | Some d => [("description", JStr (lit d))]
        | None => []
        end
     ++ field_extra f)).

Definition required_names (fs : list FieldInfo) : list json :=
  map (fun f => JStr (lit (field_name f))) (filter (fun f => field_required f = true) fs).

(** [cls.model_json_schema()].  The entry [properties] lists the fields in
    the order of their declaration; the entry [required] is present only when
    some field is required.  (The real schema has one more entry,
    [description], which the functions below do not read.) *)
Definition model_json_schema (cls : ModelClass) : json :=
  JDict
    ([("properties",
       JDict (map (fun f => (field_name f, field_schema f)) (model_fields cls)))]
     ++ match required_names (model_fields cls) with
        | [] => []
        | r => [("required", JList r)]
        end
     ++ [("title", JStr (lit (model_name cls)));
         ("type", JStr (lit "object"))]).

(** [cls.__doc__.strip() if cls.__doc__ else ""]. *)
Definition doc_stripped (cls : ModelClass) : pystr :=
  match model_doc cls with
  | Some d => match d with EmptyString => [] | _ => strip (lit d) end
  | None => []
  end.

(** ** [sgpt/llm_functions/common/execute_shell.py] *)
Module execute_shell.

Definition Function : ModelClass :=
  {| model_name := "Function";
     model_doc := Some (nl ++ "    Executes a shell command and returns the output (result)."
                        ++ nl ++ "    ")%string;
     model_fields :=
       [ {| field_name := "shell_command";
            field_type := "string";
            field_required := true;
            field_description := Some "Shell command to execute.";
            field_extra := [("example", JStr (lit "ls -la"))] |} ] |}.

Definition execute (h : host) (shell_command : pystr) : outcome pystr :=
  process ← Popen h (Shell shell_command) PIPE STDOUT;
  '(output, _) ← communicate process;
  let exit_code := returncode process in
  text ← output_decode output;
  mret (lit "Exit code: " ++ str_of_int exit_code
        ++ lit (", Output:" ++ nl) ++ text).

Definition openai_schema (cls : ModelClass) : json :=
  let schema := model_json_schema cls in
  JDict
    [("type", JStr (lit "function"));
     ("function",
      JDict
        [("name", JStr (lit "execute_shell_command"));
         ("description", JStr (doc_stripped cls));
         ("parameters",
          JDict
            [("type", JStr (lit "object"));
             ("properties", get schema "properties" (JDict []));
             ("required", get schema "required" (JList []))])])].

End execute_shell.

(** ** [sgpt/llm_functions/mac/apple_script.py] *)
Module apple_script.

Definition Function : ModelClass :=
  {| model_name := "Function";
     model_doc :=
       Some (nl ++ "    Executes Apple Script on macOS and returns the output (result)."
             ++ nl ++ "    Can be used for actions like: draft (prepare) an email, show calendar events, create a note."
             ++ nl ++ "    ")%string;
     model_fields :=
       [ {| field_name := "apple_script";
            field_type := "string";
            field_required := true;
            field_description := Some "Apple Script to execute.";
            field_extra :=
              [("example",
                JStr (lit ("tell application " ++ dquote ++ "Finder" ++ dquote
                           ++ " to get the name of every disk")%string))] |} ] |}.

Definition execute (h : host) (apple_script : pystr) : outcome pystr :=
  let script_command := [lit "osascript"; lit "-e"; apple_script] in
  try_except_Exception
    (process ← Popen h (Argv script_command) PIPE PIPE;
     '(output, _) ← communicate process;
     output ← output_decode output;
     let output := strip output in
     mret (lit "Output: " ++ output))
    (fun e => mret (lit "Error: " ++ exn_str e)).

Definition openai_schema (cls : ModelClass) : json :=
  let schema := model_json_schema cls in
  JDict
    [("type", JStr (lit "function"));
     ("function",
      JDict
        [("name", JStr (lit "execute_apple_script"));
         ("description", JStr (doc_stripped cls));
         ("parameters",
          JDict
            [("type", JStr (lit "object"));
             ("properties", get schema "properties" (JDict []));
             ("required", get schema "required" (JList []))])])].

End apple_script.

(** ** Shapes of schemas *)

(** What [model_json_schema] says about the fields of a class. *)
Definition properties_of (cls : ModelClass) : json :=
  JDict (map (fun f => (field_name f, field_schema f)) (model_fields cls)).

Definition required_of (cls : ModelClass) : json :=
  JList (required_names (model_fields cls)).

(** The value has the shape {name, description, parameters} up to the order
    of its entries. *)
Definition has_function_shape (j : json) : Prop :=
  exists d, j = JDict d /\ map fst d ≡ₚ ["name"; "description"; "parameters"].

(** The entry of a schema at a path of keys. *)
Fixpoint at_path (j : json) (path : list string) : json :=
  match path with
  | [] => j
  | k :: path' => at_path (get j k (JDict [])) path'
  end.

(** ** The orchestration core

    Role store, completion cache, session store, engine and REPL reader are
    not among the source files at hand; only their integration tests are.
    They are modelled here from the specification. *)
Module Core.

(** *** Data model *)

(** Modelled from the spec: the [expect] discriminant of a role (section 3);
    the role module is missing. *)
Inductive Expect := plain | shell | code | description.

(** Modelled from the spec: a role definition, a named template made of a
    system prompt and an expected output variant (section 3); the role module
    is missing. *)
Record RoleDefinition := mk_role {
  name : string;
  role_text : string;
  expect : Expect
}.

(** Modelled from the spec: the [role] of a chat message (section 3); the
    message type is missing. *)
Inductive MessageRole := system | user | assistant | function.

(** Modelled from the spec: a request of the model to run a declared local
    function, by name and with structured arguments (section 3); the handler
    module is missing. *)
Record FunctionCallRequest := mk_request {
  function_name : string;
  arguments : string
}.

(** Modelled from the spec: a chat message, with the metadata that only
    messages of the function protocol carry (section 3); the message type is
    missing. *)
Record ChatMessage := mk_message {
  role : MessageRole;
  content : string;
  message_name : option string;
  function_call : option FunctionCallRequest
}.

(** Modelled from the spec: the four mutually exclusive output disciplines
    (glossary, "Mode"); the application entry point is missing. *)
Inductive Mode := shell_generation | shell_description | code_generation | plain_chat.

(** Modelled from the spec: the mode flags a caller may set on one call;
    section 4.5 speaks of the modes "active per call".  The application entry
    point is missing. *)
Record ModeFlags := mk_flags {
  want_shell : bool;
  want_describe_shell : bool;
  want_code : bool
}.

(** Modelled from the spec: the error taxonomy of section 7, with the outcome
    chosen for the open question of section 9 (a turn that asks for more
    function rounds than the ceiling fails). *)
Inductive Error :=
| RoleNotFound
| RoleModeConflict
| ModeConflict
| CompletionBoundaryError
| IterationCeilingExceeded.

#[global] Instance Expect_eq_dec : EqDecision Expect.
Proof. solve_decision. Defined.
#[global] Instance Mode_eq_dec : EqDecision Mode.
Proof. solve_decision. Defined.
#[global] Instance MessageRole_eq_dec : EqDecision MessageRole.
Proof. solve_decision. Defined.
#[global] Instance Error_eq_dec : EqDecision Error.
Proof. solve_decision. Defined.

(** Modelled from the spec: at most one of shell generation, shell
    description and code generation may be active per call; none of them is
    plain chat; more than one is [ModeConflict] (section 4.5). *)
Definition requested_mode (f : ModeFlags) : Error + Mode :=
  match want_shell f, want_describe_shell f, want_code f with
  | false, false, false => inr plain_chat
  | true, false, false => inr shell_generation
  | false, true, false => inr shell_description
  | false, false, true => inr code_generation
  | _, _, _ => inl ModeConflict
  end.

(** Modelled from the spec: the output variant each mode produces. *)
Definition expect_of_mode (m : Mode) : Expect :=
  match m with
  | shell_generation => shell
  | shell_description => description
  | code_generation => code
  | plain_chat => plain
  end.

(** Modelled from the spec: [expect] governs the permitted modes (section 3):
    a role permits the mode that produces its output variant. *)
Definition compatible (e : Expect) (m : Mode) : bool :=
  bool_decide (e = expect_of_mode m).

(** Modelled from the spec: the messages the engine builds (sections 3 and
    4.5): the system message of a role, the user message of a prompt, the
    assistant message of an answer, the assistant message that records a
    function-call intent, and the function message that carries its result. *)
Definition system_message (r : RoleDefinition) : ChatMessage :=
  mk_message system (role_text r) None None.
Definition user_message (prompt : string) : ChatMessage :=
  mk_message user prompt None None.
Definition assistant_message (text : string) : ChatMessage :=
  mk_message assistant text None None.
Definition intent_message (req : FunctionCallRequest) : ChatMessage :=
  mk_message assistant "" None (Some req).
Definition function_message (req : FunctionCallRequest) (result : string) : ChatMessage :=
  mk_message function result (Some (function_name req)) None.

(** *** RoleStore (section 4.1) *)
Module RoleStore.

(** Modelled from the spec: the names of the built-in default roles, keyed by
    mode, as the integration tests show them. *)
Definition default_name (m : Mode) : string :=
  match m with
  | shell_generation => "Shell Command Generator"
  | shell_description => "Shell Command Descriptor"
  | code_generation => "Code Generator"
  | plain_chat => "ShellGPT"
  end.

(** Modelled from the spec: the built-in default role of a mode; the prompt
    texts are not given by the specification and are a parameter. *)
Definition default_role (texts : Mode -> string) (m : Mode) : RoleDefinition :=
  mk_role (default_name m) (texts m) (expect_of_mode m).

(** Modelled from the spec: the built-in roles, one per mode. *)
Definition builtin_roles (texts : Mode -> string) : list RoleDefinition :=
  map (default_role texts)
      [shell_generation; shell_description; code_generation; plain_chat].

(** Modelled from the spec: [resolve(name_or_default, mode)]: the built-in
    default of the mode when no name is given, the persisted or built-in role
    of that name otherwise, [RoleNotFound] when there is none. *)
Definition resolve (texts : Mode -> string) (roles : gmap string RoleDefinition)
    (name_or_default : option string) (mode : Mode) : Error + RoleDefinition :=
  match name_or_default with
  | None => inr (default_role texts mode)
  | Some n =>
    match roles !! n with
    | Some r => inr r
    | None =>
      match find (fun r => String.eqb (name r) n) (builtin_roles texts) with
      | Some r => inr r
      | None => inl RoleNotFound
      end
    end
  end.

End RoleStore.

(** *** ChatSessionStore (section 4.3) *)
Module ChatSessionStore.

(** Modelled from the spec: a stored session, the ordered messages together
    with the role the session was bound to when it was created (sections 3
    and 4.1); the chat handler is missing. *)
Record ChatSession := mk_session {
  bound_role : RoleDefinition;
  messages : list ChatMessage
}.

(** Modelled from the spec: [load(session_id)], empty if unknown. *)
Definition load (store : gmap string ChatSession) (session_id : string)
  : list ChatMessage :=
  match store !! session_id with
  | Some s => messages s
  | None => []
  end.

(** Modelled from the spec: [append(session_id, messages)]: the messages of a
    turn are added as one unit, in one update of the store; a session that
    does not exist yet is created, bound to the role of the turn. *)
Definition append (store : gmap string ChatSession) (session_id : string)
    (r : RoleDefinition) (new : list ChatMessage) : gmap string ChatSession :=
  match store !! session_id with
  | Some s => <[session_id := mk_session (bound_role s) (messages s ++ new)]> store
  | None => <[session_id := mk_session r new]> store
  end.

(** Modelled from the spec: [overwrite(session_id, messages)]: whatever the
    store held under the id is replaced, in one update, by a session made of
    the given messages and bound to the role of the turn. *)
Definition overwrite (store : gmap string ChatSession) (session_id : string)
    (r : RoleDefinition) (new : list ChatMessage) : gmap string ChatSession :=
  <[session_id := mk_session r new]> store.

End ChatSessionStore.

(** *** CompletionCache (section 4.2) *)
Module CompletionCache.

Section Cache.

(** The inputs of a key, the digest they are fingerprinted to and the cached
    value; [W] is the state of whatever the compute function talks to. *)
Context {K D V W : Type} `{EqDecision D}.

(** Modelled from the spec: the fingerprint, a function of all key inputs. *)
Variable fingerprint : K -> D.

(** Modelled from the spec: the configured ceiling on the number of entries. *)
Variable ceiling : nat.

(** Modelled from the spec: the entries, most recently used first. *)
Definition Cache := list (D * V).

(** Modelled from the spec: the value stored under a digest, if any. *)
Fixpoint lookup_entry (d : D) (c : Cache) : option V :=
  match c with
  | [] => None
  | (d', v) :: c' => if decide (d' = d) then Some v else lookup_entry d c'
  end.

(** Modelled from the spec: the cache without the entries of a digest. *)
Fixpoint remove_entry (d : D) (c : Cache) : Cache :=
  match c with
  | [] => []
  | (d', v) :: c' => if decide (d' = d) then remove_entry d c' else (d', v) :: remove_entry d c'
  end.

(** Modelled from the spec: storing an entry makes it the most recently used
    one and drops the least recently used entries beyond the ceiling. *)
Definition store_entry (d : D) (v : V) (c : Cache) : Cache :=
  take ceiling ((d, v) :: remove_entry d c).

(** Modelled from the spec: [get_or_compute(key_inputs, compute_fn)].  On a
    hit the stored value is returned and [compute_fn] is not invoked; on a
    miss [compute_fn] is invoked, and its result, when there is one, is
    stored verbatim and returned; a failure of [compute_fn] is passed on and
    nothing is stored. *)
Definition get_or_compute (c : Cache) (key_inputs : K)
    (compute_fn : W -> option V * W) (s : W) : option V * Cache * W :=
  let d := fingerprint key_inputs in
  match lookup_entry d c with
  | Some v => (Some v, store_entry d v c, s)
  | None =>
    match compute_fn s with
    | (Some v, s') => (Some v, store_entry d v c, s')
    | (None, s') => (None, c, s')
    end
  end.


End Cache.

End CompletionCache.

(** *** The completion boundary and the function dispatcher (sections 4.4, 6) *)

(** Modelled from the spec: the outbound request of the completion boundary:
    ordered messages, model id, temperature, top-p and the function schemas
    offered (section 6).  The two numbers are carried as written. *)
Record Request := mk_completion_request {
  req_messages : list ChatMessage;
  req_model : string;
  req_temperature : string;
  req_top_p : string;
  req_functions : list json
}.

(** Modelled from the spec: what comes back: a full text, a function-call
    intent, or a failure of the remote service (sections 6 and 7). *)
Inductive Response :=
| FinalText (text : string)
| FunctionCallIntent (req : FunctionCallRequest)
| BoundaryFailure.

(** Modelled from the spec: everything the engine is given and does not
    decide itself.  [complete n r] is the answer of the remote service to the
    request [r] when [n] requests were sent before it; [dispatch] is
    [FunctionDispatcher.execute], which reports failures as text;
    [max_rounds] is the ceiling on function rounds of section 9. *)
Record Environment := mk_env {
  default_texts : Mode -> string;
  roles : gmap string RoleDefinition;
  complete : nat -> Request -> Response;
  dispatch : FunctionCallRequest -> string;
  schemas : Mode -> list json;
  fingerprint : Request -> N;
  cache_ceiling : nat;
  max_rounds : nat;
  postprocess : Expect -> string -> string;
  model : string;
  temperature : string;
  top_p : string
}.

(** *** OrchestrationEngine (section 4.5) *)
Module OrchestrationEngine.

Import ChatSessionStore.

(** Modelled from the spec: one call of [run_single_turn] (section 6). *)
Record Call := mk_call {
  prompt : string;
  flags : ModeFlags;
  session_id : option string;
  role_name : option string;
  caching : bool
}.

(** Modelled from the spec: the states of the engine (section 4.5); [FAILED]
    is the state of an aborted turn. *)
Inductive Phase :=
| IDLE
| ROLE_RESOLVED
| HISTORY_LOADED
| AWAITING_COMPLETION
| FUNCTION_REQUESTED
| DISPATCHING
| DONE
| FAILED (e : Error).

#[global] Instance Phase_eq_dec : EqDecision Phase.
Proof. solve_decision. Defined.

(** Modelled from the spec: what persists between calls and what the outside
    can observe: the session store, the cache, and the requests that reached
    the remote service, oldest first. *)
Record World := mk_world {
  sessions : gmap string ChatSession;
  cache : list (N * Response);
  remote_log : list Request
}.

(** Modelled from the spec: the engine during one turn.  [loaded] is the
    history read from the store, [turn] the messages of this turn, which are
    sent after [loaded] and persisted when the turn completes. *)
Record Engine := mk_engine {
  phase : Phase;
  mode : Mode;
  turn_role : option RoleDefinition;
  loaded : list ChatMessage;
  turn : list ChatMessage;
  pending : option FunctionCallRequest;
  rounds : nat;
  answer : option string;
  world : World
}.

(** Modelled from the spec: the engine of a new call, in [IDLE]. *)
Definition start (w : World) : Engine :=
  mk_engine IDLE plain_chat None [] [] None 0 None w.

(** Modelled from the spec: the turn is aborted with an error; nothing else
    changes. *)
Definition fail (e : Error) (g : Engine) : Engine :=
  mk_engine (FAILED e) (mode g) (turn_role g) (loaded g) (turn g) (pending g)
            (rounds g) (answer g) (world g).

(** Modelled from the spec: the role a stored session is bound to rejects the
    requested mode (section 4.1, [RoleModeConflict]). *)
Definition binding_conflict (w : World) (sid : option string) (m : Mode) : bool :=
  match sid with
  | Some id =>
    match sessions w !! id with
    | Some s => negb (compatible (expect (bound_role s)) m)
    | None => false
    end
  | None => false
  end.

(** Modelled from the spec: the id of the temporary session, which the
    integration tests drive in one mode after another. *)
Definition temporary_session : string := "temp".

(** Modelled from the spec: overwrite-on-mode-change (section 3, lifecycle of
    a session, and [overwrite] of section 4.3): a call that drives the
    temporary session in a mode its bound role rejects does not fail; the
    session is overwritten by the turn, as the tests of the REPL on the
    session [temp] show. *)
Definition overwrites (w : World) (sid : option string) (m : Mode) : bool :=
  bool_decide (sid = Some temporary_session) && binding_conflict w sid m.

(** Modelled from the spec: the request built from the accumulated messages. *)
Definition build_request (env : Environment) (g : Engine) : Request :=
  mk_completion_request (loaded g ++ turn g) (model env) (temperature env)
                        (top_p env) (schemas env (mode g)).

(** Modelled from the spec: the compute function handed to the cache: one
    request to the remote service, recorded in the log. *)
Definition remote_call (env : Environment) (r : Request) (log : list Request)
  : option Response * list Request :=
  match complete env (length log) r with
  | BoundaryFailure => (None, log ++ [r])
  | resp => (Some resp, log ++ [r])
  end.

(** Modelled from the spec: the call of the cache or of the completion
    boundary; with caching turned off the cache is neither read nor
    written (section 4.2). *)
Definition fetch (env : Environment) (use_cache : bool) (r : Request) (w : World)
  : option Response * World :=
  if use_cache then
    let '(resp, c, log) :=
      CompletionCache.get_or_compute (fingerprint env) (cache_ceiling env)
                                     (cache w) r (remote_call env r) (remote_log w) in
    (resp, mk_world (sessions w) c log)
  else
    let '(resp, log) := remote_call env r (remote_log w) in
    (resp, mk_world (sessions w) (cache w) log).

(** Modelled from the spec: the turn is persisted by one update of the store,
    an [append], or an [overwrite] when the temporary session changes mode;
    calls without a session never touch the store (section 4.3). *)
Definition persist (c : Call) (m : Mode) (r : RoleDefinition) (new : list ChatMessage)
    (w : World) : World :=
  match session_id c with
  | Some id =>
    mk_world (if overwrites w (session_id c) m
              then overwrite (sessions w) id r new
              else append (sessions w) id r new)
             (cache w) (remote_log w)
  | None => w
  end.

(** Modelled from the spec: the history a call in mode [m] continues, read
    from the store (none for a call without a session, and none when the
    session is about to be overwritten), and the messages that open its turn:
    the system message of the role when the history is empty, then the prompt
    (sections 3 and 4.5). *)
Definition history (c : Call) (m : Mode) (w : World) : list ChatMessage :=
  match session_id c with
  | Some id => if overwrites w (session_id c) m then [] else load (sessions w) id
  | None => []
  end.

Definition opening (c : Call) (m : Mode) (r : RoleDefinition) (w : World)
  : list ChatMessage :=
  match history c m w with
  | [] => [system_message r]
  | _ => []
  end ++ [user_message (prompt c)].

(** Modelled from the spec: the two messages a function round adds to the
    turn: the intent of the model, as an assistant message, then the result
    of the dispatcher for that very request, as a function message
    (section 4.5). *)
Definition round_messages (env : Environment) (req : FunctionCallRequest)
  : list ChatMessage :=
  [intent_message req; function_message req (dispatch env req)].

(** Modelled from the spec: the dialogue of a turn with the completion
    boundary, read as one function (section 4.5, from [AWAITING_COMPLETION]
    to the end of the turn): the accumulated messages are sent; a final text
    is post-processed and closes the turn; a function-call intent is
    dispatched, its two messages join the turn and the dialogue goes on, for
    at most [n] further rounds.  It returns the messages of the turn and the
    answer, or the error, and the world before the turn is persisted. *)
Fixpoint dialogue (env : Environment) (use_cache : bool) (m : Mode) (r : RoleDefinition)
    (n : nat) (base new : list ChatMessage) (w : World)
  : (Error + list ChatMessage * string) * World :=
  match fetch env use_cache
              (mk_completion_request (base ++ new) (model env) (temperature env)
                                     (top_p env) (schemas env m)) w with
  | (Some (FinalText text), w') =>
    let final := postprocess env (expect r) text in
    (inr (new ++ [assistant_message final], final), w')
  | (Some (FunctionCallIntent req), w') =>
    match n with
    | O => (inl IterationCeilingExceeded, w')
    | S n' => dialogue env use_cache m r n' base (new ++ round_messages env req) w'
    end
  | (_, w') => (inl CompletionBoundaryError, w')
  end.

(** Modelled from the spec: one transition of the state machine of
    section 4.5.  In [IDLE] the exclusivity of the modes is checked first,
    then the binding of the session, which depends on the session and the
    mode only (a conflict fails the turn, except on the temporary session,
    which will be overwritten), then the role is looked up.  The store is
    written in the transition to [DONE] and nowhere else. *)
Definition step (env : Environment) (c : Call) (g : Engine) : Engine :=
  match phase g with
  | IDLE =>
    match requested_mode (flags c) with
    | inl e => fail e g
    | inr m =>
      if binding_conflict (world g) (session_id c) m
         && negb (overwrites (world g) (session_id c) m)
      then fail RoleModeConflict g
      else
        match RoleStore.resolve (default_texts env) (roles env) (role_name c) m with
        | inl e => fail e g
        | inr r =>
          mk_engine ROLE_RESOLVED m (Some r) (loaded g) (turn g) (pending g)
                    (rounds g) (answer g) (world g)
        end
    end
  | ROLE_RESOLVED =>
    match turn_role g with
    | None => g
    | Some r =>
      mk_engine HISTORY_LOADED (mode g) (turn_role g) (history c (mode g) (world g))
                (opening c (mode g) r (world g)) (pending g) (rounds g) (answer g)
                (world g)
    end
  | HISTORY_LOADED =>
    mk_engine AWAITING_COMPLETION (mode g) (turn_role g) (loaded g) (turn g)
              (pending g) (rounds g) (answer g) (world g)
  | AWAITING_COMPLETION =>
    match turn_role g with
    | None => g
    | Some r =>
      match fetch env (caching c) (build_request env g) (world g) with
      | (None, w) =>
        mk_engine (FAILED CompletionBoundaryError) (mode g) (turn_role g) (loaded g)
                  (turn g) (pending g) (rounds g) (answer g) w
      | (Some BoundaryFailure, w) =>
        mk_engine (FAILED CompletionBoundaryError) (mode g) (turn_role g) (loaded g)
                  (turn g) (pending g) (rounds g) (answer g) w
      | (Some (FunctionCallIntent req), w) =>
        if decide (rounds g < max_rounds env)%nat
        then mk_engine FUNCTION_REQUESTED (mode g) (turn_role g) (loaded g) (turn g)
                       (Some req) (rounds g) (answer g) w
        else mk_engine (FAILED IterationCeilingExceeded) (mode g) (turn_role g)
                       (loaded g) (turn g) (pending g) (rounds g) (answer g) w
      | (Some (FinalText text), w) =>
        let final := postprocess env (expect r) text in
        let new := turn g ++ [assistant_message final] in
        mk_engine DONE (mode g) (turn_role g) (loaded g) new None (rounds g)
                  (Some final) (persist c (mode g) r new w)
      end
    end
  | FUNCTION_REQUESTED =>
    match pending g with
    | None => g
    | Some req =>
      mk_engine DISPATCHING (mode g) (turn_role g) (loaded g)
                (turn g ++ [intent_message req]) (pending g) (rounds g) (answer g)
                (world g)
    end
  | DISPATCHING =>
    match pending g with
    | None => g
    | Some req =>
      mk_engine AWAITING_COMPLETION (mode g) (turn_role g) (loaded g)
                (turn g ++ [function_message req (dispatch env req)]) None
                (S (rounds g)) (answer g) (world g)
    end
  | DONE => g
  | FAILED _ => g
  end.

(** Modelled from the spec: the engine after [n] transitions. *)
Fixpoint steps (env : Environment) (c : Call) (n : nat) (g : Engine) : Engine :=
  match n with
  | O => g
  | S n' => steps env c n' (step env c g)
  end.

(** Modelled from the spec: [run_single_turn]: the result of a call and the
    world it leaves, when the turn ends within [fuel] transitions. *)
Definition run_single_turn (env : Environment) (c : Call) (fuel : nat) (w : World)
  : option ((Error + string) * World) :=
  let g := steps env c fuel (start w) in
  match phase g, answer g with
  | DONE, Some text => Some (inr text, world g)
  | FAILED e, _ => Some (inl e, world g)
  | _, _ => None
  end.

End OrchestrationEngine.

(** *** ReplLoop (section 4.6) *)
Module ReplLoop.

(** Modelled from the spec: the delimiter that opens and closes a multi-line
    block, three double quotes, and the exit token, as the integration tests
    type them; the REPL handler is missing. *)
Definition delimiter : string := (dquote ++ dquote ++ dquote)%string.
Definition exit_token : string := "exit()".

(** Modelled from the spec: what the loop does with its input: it submits a
    prompt to the engine or, in shell-producing mode, runs or describes the
    most recently produced command. *)
Inductive Action :=
| Submit (prompt : string)
| ExecuteLast
| DescribeLast.

(** Modelled from the spec: the lines of a block are submitted as one prompt,
    joined by line breaks. *)
Definition block_prompt (block : list string) : string := String.concat nl block.

(** Modelled from the spec: the read loop over the input lines.  [block] is
    [Some acc] while a multi-line block is open, [acc] being the lines
    accumulated so far.  Control inputs are recognised only outside a block;
    the exit token ends the loop. *)
Fixpoint loop (shell_mode : bool) (block : option (list string)) (lines : list string)
  : list Action :=
  match lines with
  | [] => []
  | line :: rest =>
    match block with
    | Some acc =>
      if String.eqb line delimiter
      then Submit (block_prompt acc) :: loop shell_mode None rest
      else loop shell_mode (Some (acc ++ [line])) rest
    | None =>
      if String.eqb line delimiter then loop shell_mode (Some []) rest
      else if String.eqb line exit_token then []
      else if shell_mode && String.eqb line "e" then ExecuteLast :: loop shell_mode None rest
      else if shell_mode && String.eqb line "d" then DescribeLast :: loop shell_mode None rest
      else Submit line :: loop shell_mode None rest
    end
  end.

(** Modelled from the spec: the loop starts outside a block. *)
Definition repl (shell_mode : bool) (lines : list string) : list Action :=
  loop shell_mode None lines.

(** The prompts a run of the loop sends to the engine. *)
Definition submitted (actions : list Action) : list string :=
  omap (fun a => match a with Submit p => Some p | _ => None end) actions.

(** Modelled from the spec: each accepted prompt is forwarded to the engine,
    bound to the session of the loop; the world is threaded through the
    turns (section 4.6). *)
Fixpoint drive (env : Environment) (f : ModeFlags) (session : string) (fuel : nat)
    (prompts : list string) (w : OrchestrationEngine.World)
  : OrchestrationEngine.World :=
  match prompts with
  | [] => w
  | p :: prompts' =>
    match OrchestrationEngine.run_single_turn env
            (OrchestrationEngine.mk_call p f (Some session) None false) fuel w with
    | Some (_, w') => drive env f session fuel prompts' w'
    | None => w
    end
  end.

End ReplLoop.

(** *** Repeated calls of the cache *)


End Core.

(** ** Example hosts and environments *)
Module Examples.

Import Core Core.OrchestrationEngine Core.ChatSessionStore.

(** A machine on which every command prints the single octet 0xFF and
    succeeds, as [printf '\377'] does. *)
Definition host_binary : host :=
  mk_host (fun _ => inr (mk_child [(fd_stdout, [Byte.xff])] None 0%Z)).

(** A machine that refuses command lines with an embedded null character, as
    [subprocess] does on every platform, and on which every other command
    prints a line on each stream and exits with code 1. *)
Definition embedded_null : pyexn := mk_exn "ValueError" (lit "embedded null byte") true.

Definition has_null (args : popen_args) : bool :=
  match args with
  | Shell cmd => existsb (N.eqb 0) cmd
  | Argv argv => existsb (existsb (N.eqb 0)) argv
  end.

Definition host_failing : host :=
  mk_host (fun args =>
    if has_null args then inl embedded_null
    else inr (mk_child [(fd_stdout, ascii_bytes ("  partial" ++ nl));
                        (fd_stderr, ascii_bytes ("execution error" ++ nl));
                        (fd_stdout, ascii_bytes ("result " ++ nl))] None 1%Z)).

Definition printf_377 : pystr := lit "printf '\377'".
Definition null_command : pystr := lit "echo a" ++ [0] ++ lit "b".
Definition finder_script : pystr :=
  lit ("tell application " ++ dquote ++ "Finder" ++ dquote ++ " to get the name of every disk").

(** A remote service that first asks for [execute_shell_command] and answers
    once it has seen a function result. *)
Definition ls_request : FunctionCallRequest :=
  mk_request "execute_shell_command"
             ("{" ++ dquote ++ "shell_command" ++ dquote ++ ": "
              ++ dquote ++ "ls -la" ++ dquote ++ "}").

Definition asks_once (n : nat) (r : Request) : Response :=
  if existsb (fun m => bool_decide (role m = function)) (req_messages r)
  then FinalText "ls -la | sort"
  else FunctionCallIntent ls_request.

Definition answers (n : nat) (r : Request) : Response := FinalText "ls -la".

Definition env_with (remote : nat -> Request -> Response) : Environment :=
  {| default_texts := fun m => ("You are " ++ RoleStore.default_name m)%string;
     roles := ∅;
     complete := remote;
     dispatch := fun _ => ("Exit code: 0, Output:" ++ nl ++ "total 0" ++ nl)%string;
     schemas := fun _ => [execute_shell.openai_schema execute_shell.Function];
     fingerprint := fun r => N.of_nat (length (req_messages r));
     cache_ceiling := 4;
     max_rounds := 3;
     postprocess := fun _ text => text;
     model := "gpt-4o";
     temperature := "0.0";
     top_p := "1.0" |}.

Definition empty_world : World := mk_world ∅ [] [].

Definition shell_call (p : string) : Call :=
  mk_call p (mk_flags true false false) (Some "temp") None false.
Definition both_call (p : string) : Call :=
  mk_call p (mk_flags true false true) None None false.

Definition shell_role : RoleDefinition :=
  RoleStore.default_role (default_texts (env_with answers)) shell_generation.

Definition first_request : Request :=
  mk_completion_request
    [system_message shell_role; user_message "What is in current folder?"]
    "gpt-4o" "0.0" "1.0" [execute_shell.openai_schema execute_shell.Function].

(** The world after the first turn of a REPL session in shell mode. *)
Definition after_first_turn : World :=
  mk_world
    {[ "temp" := mk_session shell_role
         [system_message shell_role;
          user_message "What is in current folder?";
          assistant_message "ls -la"] ]}
    [] [first_request].

Definition code_role : RoleDefinition :=
  RoleStore.default_role (default_texts (env_with answers)) code_generation.

Definition code_session : ChatSession :=
  mk_session code_role
    [system_message code_role;
     user_message "Using python request localhost:80.";
     assistant_message "import requests"].





Definition code_world : World :=
  mk_world
    {[ "temp" := code_session ]} [] [].

End Examples.

(** ** Invariant of a turn *)
Module TurnInvariant.

Import Core Core.OrchestrationEngine Core.ChatSessionStore.

(** The sessions a completed turn leaves in the store. *)
Definition persisted (c : Call) (m : Mode) (r : RoleDefinition) (new : list ChatMessage)
    (w0 : World) : gmap string ChatSession :=
  match session_id c with
  | Some id =>
    if overwrites w0 (session_id c) m
    then overwrite (sessions w0) id r new
    else append (sessions w0) id r new
  | None => sessions w0
  end.

(** The role of the turn is the one the role store resolves for the call. *)
Definition role_resolved (env : Environment) (c : Call) (g : Engine)
    (r : RoleDefinition) : Prop :=
  turn_role g = Some r
  /\ requested_mode (flags c) = inr (mode g)
  /\ RoleStore.resolve (default_texts env) (roles env) (role_name c) (mode g) = inr r.

(** While a turn runs: the role is resolved, the store is as it was, the
    history is the one read at the start, and the turn so far is its opening,
    the messages of the function rounds made for the requests [reqs], in
    order, and the messages [extra] of a round under way. *)
Definition running (env : Environment) (c : Call) (w0 : World) (g : Engine)
    (reqs : list FunctionCallRequest) (extra : list ChatMessage) : Prop :=
  exists r,
    role_resolved env c g r
    /\ sessions (world g) = sessions w0
    /\ loaded g = history c (mode g) w0
    /\ turn g = opening c (mode g) r w0 ++ flat_map (round_messages env) reqs ++ extra
    /\ length reqs = rounds g
    /\ (rounds g <= max_rounds env)%nat.

(** What holds of the engine in each state of a turn started in [w0]. *)
Definition invariant (env : Environment) (c : Call) (w0 : World) (g : Engine) : Prop :=
  match phase g with
  | IDLE => g = start w0
  | ROLE_RESOLVED =>
    (exists r, role_resolved env c g r)
    /\ rounds g = 0%nat /\ sessions (world g) = sessions w0
  | HISTORY_LOADED | AWAITING_COMPLETION => exists reqs, running env c w0 g reqs []
  | FUNCTION_REQUESTED =>
    exists reqs req,
      running env c w0 g reqs []
      /\ pending g = Some req /\ (rounds g < max_rounds env)%nat
  | DISPATCHING =>
    exists reqs req,
      running env c w0 g reqs [intent_message req]
      /\ pending g = Some req /\ (rounds g < max_rounds env)%nat
  | DONE =>
    exists r reqs text,
      role_resolved env c g r
      /\ sessions (world g) = persisted c (mode g) r (turn g) w0
      /\ loaded g = history c (mode g) w0
      /\ turn g = opening c (mode g) r w0 ++ flat_map (round_messages env) reqs
                   ++ [assistant_message text]
      /\ answer g = Some text
      /\ length reqs = rounds g
  | FAILED _ => sessions (world g) = sessions w0
  end.

(** A bound on the number of transitions a turn still makes. *)
Definition remaining (env : Environment) (g : Engine) : nat :=
  match phase g with
  | IDLE => 4 + 3 * max_rounds env
  | ROLE_RESOLVED => 3 + 3 * max_rounds env
  | HISTORY_LOADED => 2 + 3 * max_rounds env
  | AWAITING_COMPLETION => 1 + 3 * (max_rounds env - rounds g)
  | FUNCTION_REQUESTED => 3 * (max_rounds env - rounds g)
  | DISPATCHING => 3 * (max_rounds env - rounds g) - 1
  | DONE => 0
  | FAILED _ => 0
  end.

Definition ended (g : Engine) : Prop :=
  phase g = DONE \/ exists e, phase g = FAILED e.

End TurnInvariant.

(** ** [tests/_integration.py]: building the command line *)
Module TestShellGpt.

(** The values the tests put in their dictionaries of arguments. *)
Inductive pyobj :=
| PStr (s : string)
| PBool (b : bool)
| PInt (z : Z).

(** [isinstance(value, bool)]. *)
Definition isinstance_bool (value : pyobj) : bool :=
  match value with
  | PBool _ => true
  | _ => false
  end.

(** The loop [for key, value in kwargs.items()] of [get_arguments], on the
    list [arguments] built so far: the key is appended, and the value too
    unless it is a [bool]. *)
Fixpoint get_arguments_loop (arguments : list pyobj) (items : list (string * pyobj))
  : list pyobj :=
  match items with
  | [] => arguments
  | (key, value) :: items' =>
    let arguments := arguments ++ [PStr key] in
    if isinstance_bool value
    then get_arguments_loop arguments items'
    else get_arguments_loop (arguments ++ [value]) items'
  end.

Definition get_arguments (prompt : pyobj) (kwargs : list (string * pyobj))
  : list pyobj :=
  let arguments := [prompt] in
  let arguments := get_arguments_loop arguments kwargs in
  arguments ++ [PStr "--no-cache"].

(** What one entry of [kwargs] contributes to the command line. *)
Definition item_arguments (item : string * pyobj) : list pyobj :=
  if isinstance_bool item.2 then [PStr item.1] else [PStr item.1; item.2].

(** Two dictionaries that differ in the truth values of their flags only. *)
Definition same_up_to_flags (kw1 kw2 : list (string * pyobj)) : Prop :=
  Forall2 (fun i1 i2 =>
             i1.1 = i2.1
             /\ (i1.2 = i2.2 \/ (isinstance_bool i1.2 = true /\ isinstance_bool i2.2 = true)))
          kw1 kw2.

End TestShellGpt.

(** ** Notions used to state properties of the executors *)

(** A text that neither begins nor ends with a whitespace character. *)
Definition trimmed (s : pystr) : Prop :=
  s = [] \/ (exists c t, s = c :: t /\ isspace c = false)
            /\ (exists t c, s = t ++ [c] /\ isspace c = false).

(** What the child wrote to standard output, and all it wrote. *)
Definition stdout_writes (c : child) : bytes :=
  concat (map snd (filter (fun w => w.1 = fd_stdout) (child_writes c))).

Definition all_writes (c : child) : bytes := concat (map snd (child_writes c)).

(** A class with two fields, one of them with a default, and no docstring. *)
Definition optional_model : ModelClass :=
  {| model_name := "Options";
     model_doc := None;
     model_fields :=
       [ {| field_name := "timeout"; field_type := "integer"; field_required := false;
            field_description := None; field_extra := [] |};
         {| field_name := "shell"; field_type := "string"; field_required := false;
            field_description := Some "Shell to use."; field_extra := [] |} ] |}.

(** A machine on which the user interrupts every command while it starts. *)
Definition KeyboardInterrupt : pyexn := mk_exn "KeyboardInterrupt" [] false.

Definition host_interrupted : host := mk_host (fun _ => inl KeyboardInterrupt).

(** A machine without [osascript]. *)
Definition osascript_missing : pyexn :=
  mk_exn "FileNotFoundError" (lit "[Errno 2] No such file or directory: 'osascript'") true.

Definition host_without_osascript : host := mk_host (fun _ => inl osascript_missing).

(** A machine on which every script fails: the message goes to standard
    error, a line break to standard output, and the exit code is 1. *)
Definition failed_script : child :=
  mk_child [(fd_stderr, ascii_bytes "0:4: syntax error: A unknown token can't go here. (-2740)");
            (fd_stdout, ascii_bytes nl)] None 1%Z.

Definition host_script_error : host := mk_host (fun _ => inr failed_script).

(** The last statement of [test_code],
    [assert script_output.stdout.decode().strip(), number_a * number_b]:
    the assertion is on the stripped output, the product is its message. *)
Definition test_code_assert (stdout : bytes) (number_a number_b : Z) : outcome unit :=
  text ← decode stdout;
  match strip text with
  | [] => Raised (mk_exn "AssertionError" (str_of_int (number_a * number_b)) true)
  | _ => Returned tt
  end.

(** * Properties *)

Import Core Core.OrchestrationEngine Core.ChatSessionStore Examples.

(** ** The runtime *)

(** Under [stderr=STDOUT] the pipe of standard output receives every write of
    the child, of both streams, in the order they were made. *)
Lemma stdout_pipe_combined (ws : list (stream * bytes)) :
  stdout_pipe STDOUT ws = concat (map snd ws).
Proof.
  induction ws as [|[[] b] ws IH]; simpl; [reflexivity | |]; now rewrite IH.
Qed.

(** Under [stderr=PIPE] it receives the writes to standard output only. *)
Lemma stdout_pipe_separate (ws : list (stream * bytes)) :
  stdout_pipe PIPE ws = concat (map snd (filter (fun w => w.1 = fd_stdout) ws)).
Proof.
  induction ws as [|[s b] ws IH]; [reflexivity |].
  rewrite filter_cons. destruct s; simpl.
  - now rewrite IH.
  - exact IH.
Qed.

Lemma decode_Decoded (b : bytes) (text : pystr) :
  utf8_decode b = Decoded text -> decode b = Returned text.
Proof. unfold decode. now intros ->. Qed.

Lemma decode_DecodeError (b : bytes) (start stop : N) (reason : string) :
  utf8_decode b = DecodeError start stop reason ->
  decode b = Raised (UnicodeDecodeError b start stop reason).
Proof. unfold decode. now intros ->. Qed.

(** ** The shell executor *)

(** C1, as amended.  Whenever the host shell can be started on the command,
    waiting for it does not raise, and the combined output of the child (its
    writes to standard output and standard error, in order) is valid UTF-8,
    [execute] returns exactly "Exit code: ", the return code of the child in
    decimal, ", Output:", a line break, and the decoded combined output. *)
Theorem execute_shell_returns (h : host) (shell_command : pystr) (c : child) (text : pystr) :
  host_spawn h (Shell shell_command) = inr c ->
  child_communicate_error c = None ->
  utf8_decode (concat (map snd (child_writes c))) = Decoded text ->
  execute_shell.execute h shell_command
  = Returned (lit "Exit code: " ++ str_of_int (child_returncode c)
              ++ lit (", Output:" ++ nl) ++ text).
Proof.
  intros Hspawn Hcomm Hdec.
  unfold execute_shell.execute, Popen. rewrite Hspawn. simpl.
  unfold communicate. simpl. rewrite Hcomm. simpl.
  rewrite stdout_pipe_combined. rewrite (decode_Decoded _ _ Hdec).
  reflexivity.
Qed.

(** A command that writes to both streams and fails with code 1. *)
Lemma execute_shell_returns_witness :
  execute_shell.execute host_failing (lit "ls")
  = Returned (lit ("Exit code: 1, Output:" ++ nl ++ "  partial" ++ nl
                   ++ "execution error" ++ nl ++ "result " ++ nl)).
Proof.
  exact (execute_shell_returns host_failing (lit "ls")
           (mk_child [(fd_stdout, ascii_bytes ("  partial" ++ nl));
                      (fd_stderr, ascii_bytes ("execution error" ++ nl));
                      (fd_stdout, ascii_bytes ("result " ++ nl))] None 1%Z)
           (lit ("  partial" ++ nl ++ "execution error" ++ nl ++ "result " ++ nl))
           eq_refl eq_refl eq_refl).
Defined.

(** C1, as stated, fails: a command whose output is not valid UTF-8 does not
    make [execute] return a string of that form (it returns nothing). *)
Lemma execute_shell_undecodable_output :
  ~ exists (exit_code : Z) (text : pystr),
      execute_shell.execute host_binary printf_377
      = Returned (lit "Exit code: " ++ str_of_int exit_code
                  ++ lit (", Output:" ++ nl) ++ text).
Proof.
  intros (exit_code & text & H).
  change (execute_shell.execute host_binary printf_377)
    with (output_decode (Some [Byte.xff]) ≫= fun t : pystr =>
            Returned (lit "Exit code: " ++ str_of_int 0 ++ lit (", Output:" ++ nl) ++ t)) in H.
  discriminate H.
Qed.

(** C2.  The shell executor lets exceptions through: the decoding error of an
    output that is not valid UTF-8, and the error of a command line that
    cannot be started. *)
Theorem execute_shell_raises :
  execute_shell.execute host_binary printf_377
  = Raised (UnicodeDecodeError [Byte.xff] 0 1 invalid_start)
  /\ execute_shell.execute host_failing null_command = Raised embedded_null.
Proof. split; reflexivity. Qed.

(** ** The AppleScript executor *)

(** Whatever the host does, [execute] returns a text, unless an exception
    that is not an [Exception] (an interrupt) passes through it. *)
Lemma apple_script_execute_catches (h : host) (script : pystr) :
  (exists text, apple_script.execute h script = Returned text)
  \/ (exists e, apple_script.execute h script = Raised e /\ exn_is_Exception e = false).
Proof.
  unfold apple_script.execute, try_except_Exception.
  match goal with |- context [match ?b with Returned _ => _ | Raised _ => _ end] =>
    destruct b as [text|e] end.
  - left. eauto.
  - destruct (exn_is_Exception e) eqn:He.
    + left. simpl. eauto.
    + right. eauto.
Qed.

(** An exception raised when starting [osascript] becomes the text "Error: "
    followed by its message. *)
Lemma apple_script_execute_spawn_error (h : host) (script : pystr) (e : pyexn) :
  host_spawn h (Argv [lit "osascript"; lit "-e"; script]) = inl e ->
  exn_is_Exception e = true ->
  apple_script.execute h script = Returned (lit "Error: " ++ exn_str e).
Proof.
  intros Hspawn He. unfold apple_script.execute, Popen. rewrite Hspawn. simpl.
  now rewrite He.
Qed.

(** So does the decoding error of an output that is not valid UTF-8. *)
Lemma apple_script_execute_decode_error (h : host) (script : pystr) (c : child)
    (start stop : N) (reason : string) :
  host_spawn h (Argv [lit "osascript"; lit "-e"; script]) = inr c ->
  child_communicate_error c = None ->
  utf8_decode (stdout_pipe PIPE (child_writes c)) = DecodeError start stop reason ->
  apple_script.execute h script
  = Returned (lit "Error: "
              ++ decode_error_str (stdout_pipe PIPE (child_writes c)) start stop reason).
Proof.
  intros Hspawn Hcomm Hdec. unfold apple_script.execute, Popen. rewrite Hspawn. simpl.
  unfold communicate. simpl. rewrite Hcomm. simpl.
  rewrite (decode_DecodeError _ _ _ _ Hdec). reflexivity.
Qed.

(** C4, as amended.  Whenever [osascript] can be started, waiting for it does
    not raise and what it wrote to standard output is valid UTF-8, [execute]
    returns "Output: " followed by that text, stripped; the return code and
    the writes to standard error play no part, and the result is not an
    "Error: " text. *)
Theorem apple_script_execute_output (h : host) (script : pystr) (c : child) (text : pystr) :
  host_spawn h (Argv [lit "osascript"; lit "-e"; script]) = inr c ->
  child_communicate_error c = None ->
  utf8_decode (concat (map snd (filter (fun w => w.1 = fd_stdout) (child_writes c))))
  = Decoded text ->
  apple_script.execute h script = Returned (lit "Output: " ++ strip text)
  /\ forall message, apple_script.execute h script <> Returned (lit "Error: " ++ message).
Proof.
  intros Hspawn Hcomm Hdec.
  assert (apple_script.execute h script = Returned (lit "Output: " ++ strip text)) as ->.
  { unfold apple_script.execute, Popen. rewrite Hspawn. simpl.
    unfold communicate. simpl. rewrite Hcomm. simpl.
    rewrite stdout_pipe_separate. rewrite (decode_Decoded _ _ Hdec). reflexivity. }
  split; [reflexivity | intros message H; discriminate H].
Qed.

(** A script that fails with code 1 after writing to both streams. *)
Lemma apple_script_execute_output_witness :
  apple_script.execute host_failing finder_script
  = Returned (lit ("Output: partial" ++ nl ++ "result")).
Proof.
  exact (proj1 (apple_script_execute_output host_failing finder_script
           (mk_child [(fd_stdout, ascii_bytes ("  partial" ++ nl));
                      (fd_stderr, ascii_bytes ("execution error" ++ nl));
                      (fd_stdout, ascii_bytes ("result " ++ nl))] None 1%Z)
           (lit ("  partial" ++ nl ++ "result " ++ nl))
           eq_refl eq_refl eq_refl)).
Defined.

(** C4, as stated, fails: [osascript] is started, waiting for it does not
    raise, and yet the result is an "Error: " text, not an "Output: " one:
    decoding is inside the [try] as well. *)
Lemma apple_script_undecodable_output :
  (exists c, host_spawn host_binary (Argv [lit "osascript"; lit "-e"; finder_script]) = inr c
             /\ child_communicate_error c = None)
  /\ apple_script.execute host_binary finder_script
     = Returned (lit "Error: 'utf-8' codec can't decode byte 0xff in position 0: invalid start byte")
  /\ ~ exists rest, apple_script.execute host_binary finder_script
                    = Returned (lit "Output: " ++ rest).
Proof.
  split; [eexists; split; reflexivity |].
  split; [reflexivity |].
  intros (rest & H). vm_compute in H. discriminate H.
Qed.

(** ** The schemas *)

Lemma model_json_schema_properties (cls : ModelClass) :
  get (model_json_schema cls) "properties" (JDict []) = properties_of cls.
Proof. reflexivity. Qed.

(** When no field is required the schema has no entry [required] and the
    default of [get], the empty list, is what the caller sees. *)
Lemma model_json_schema_required (cls : ModelClass) :
  get (model_json_schema cls) "required" (JList []) = required_of cls.
Proof.
  unfold model_json_schema, required_of.
  destruct (required_names (model_fields cls)); reflexivity.
Qed.

(** C3, as stated, fails: the value the shell executor supplies has two
    entries, [type] and [function]; the entries [name], [description] and
    [parameters] are one level down. *)
Lemma openai_schema_is_wrapped :
  ~ has_function_shape (execute_shell.openai_schema execute_shell.Function).
Proof.
  intros (d & Heq & Hperm).
  apply Permutation_length in Hperm.
  injection Heq as <-. simpl in Hperm. discriminate Hperm.
Qed.

(** C3, as amended.  For every class, of either executor, the schema is
    {type: function, function: F} where F is exactly {name, description,
    parameters: {type: object, properties, required}}, [properties] having
    one entry per declared field, in order, and [required] naming the fields
    declared without a default. *)
Theorem openai_schema_shape (cls : ModelClass) :
  execute_shell.openai_schema cls
  = JDict [("type", JStr (lit "function"));
           ("function",
            JDict [("name", JStr (lit "execute_shell_command"));
                   ("description", JStr (doc_stripped cls));
                   ("parameters",
                    JDict [("type", JStr (lit "object"));
                           ("properties", properties_of cls);
                           ("required", required_of cls)])])]
  /\ apple_script.openai_schema cls
     = JDict [("type", JStr (lit "function"));
              ("function",
               JDict [("name", JStr (lit "execute_apple_script"));
                      ("description", JStr (doc_stripped cls));
                      ("parameters",
                       JDict [("type", JStr (lit "object"));
                              ("properties", properties_of cls);
                              ("required", required_of cls)])])]
  /\ has_function_shape (get (execute_shell.openai_schema cls) "function" (JDict []))
  /\ has_function_shape (get (apple_script.openai_schema cls) "function" (JDict [])).
Proof.
  unfold execute_shell.openai_schema, apple_script.openai_schema.
  cbv zeta.
  rewrite model_json_schema_properties, model_json_schema_required.
  repeat split; try reflexivity; eexists; (split; [reflexivity | reflexivity]).
Qed.

(** C10.  [openai_schema] reads nothing but the class it is called on, so it
    is a function of the class; on the class of the shell executor it names
    the function [execute_shell_command] and requires exactly
    [shell_command], on the class of the AppleScript executor it names
    [execute_apple_script] and requires exactly [apple_script]; in both the
    type of the parameters is [object]. *)
Theorem openai_schema_required_field :
  let shell_schema := execute_shell.openai_schema execute_shell.Function in
  let apple_schema := apple_script.openai_schema apple_script.Function in
  at_path shell_schema ["function"; "name"] = JStr (lit "execute_shell_command")
  /\ at_path shell_schema ["function"; "parameters"; "required"]
     = JList [JStr (lit "shell_command")]
  /\ at_path shell_schema ["function"; "parameters"; "type"] = JStr (lit "object")
  /\ at_path apple_schema ["function"; "name"] = JStr (lit "execute_apple_script")
  /\ at_path apple_schema ["function"; "parameters"; "required"]
     = JList [JStr (lit "apple_script")]
  /\ at_path apple_schema ["function"; "parameters"; "type"] = JStr (lit "object").
Proof. repeat split; reflexivity. Qed.

(** ** The engine *)

Lemma steps_fixed (env : Environment) (c : Call) (n : nat) (g : Engine) :
  step env c g = g -> steps env c n g = g.
Proof.
  intros Hfix. induction n as [|n IH]; simpl; [reflexivity |].
  now rewrite Hfix.
Qed.

Lemma steps_failed (env : Environment) (c : Call) (n : nat) (e : Error) (g : Engine) :
  steps env c n (fail e g) = fail e g.
Proof. apply steps_fixed. reflexivity. Qed.

Lemma steps_done (env : Environment) (c : Call) (n : nat) (g : Engine) :
  phase g = DONE -> steps env c n g = g.
Proof. intros H. apply steps_fixed. unfold step. now rewrite H. Qed.

Lemma steps_add (env : Environment) (c : Call) (n m : nat) (g : Engine) :
  steps env c (n + m) g = steps env c m (steps env c n g).
Proof. revert g. induction n as [|n IH]; intros g; simpl; [reflexivity | apply IH]. Qed.

(** A turn whose first transition fails stays failed, in the world it
    started in. *)
Ltac failed_at_first_step Hstep :=
  split;
  [ intros [|?]; simpl; [auto | rewrite Hstep, steps_failed; simpl; auto]
  | intros ?; unfold run_single_turn; simpl; now rewrite Hstep, steps_failed ].

(** C5.  A call that asks for shell generation and code generation at once
    fails with [ModeConflict] at its first transition, whatever the prompt:
    the engine is never in another state than [IDLE] or the failed one, the
    world (store, cache and the log of remote requests) is the one it
    started in, and the turn ends with that error for any positive fuel. *)
Theorem mode_conflict_fails_fast (env : Environment) (c : Call) (w : World) :
  want_shell (flags c) = true ->
  want_code (flags c) = true ->
  (forall n, (phase (steps env c n (start w)) = IDLE
              \/ phase (steps env c n (start w)) = FAILED ModeConflict)
             /\ world (steps env c n (start w)) = w)
  /\ (forall fuel, run_single_turn env c (S fuel) w = Some (inl ModeConflict, w)).
Proof.
  intros Hshell Hcode.
  assert (Hstep : step env c (start w) = fail ModeConflict (start w)).
  { unfold step, requested_mode. simpl. rewrite Hshell, Hcode.
    now destruct (want_describe_shell (flags c)). }
  failed_at_first_step Hstep.
Qed.

Lemma mode_conflict_fails_fast_witness :
  run_single_turn (env_with answers) (both_call "What is the capital of the Czech Republic?")
                  1 empty_world
  = Some (inl ModeConflict, empty_world).
Proof.
  exact (proj2 (mode_conflict_fails_fast (env_with answers)
                  (both_call "What is the capital of the Czech Republic?")
                  empty_world eq_refl eq_refl) 0%nat).
Defined.

(** The first transition of a call in shell-generation mode on a session,
    other than the temporary one, that is bound to a role with
    [expect = code]. *)
Lemma binding_conflict_step (env : Environment) (c : Call) (w : World)
    (sid : string) (s : ChatSession) :
  sid <> temporary_session ->
  session_id c = Some sid ->
  sessions w !! sid = Some s ->
  expect (bound_role s) = code ->
  requested_mode (flags c) = inr shell_generation ->
  step env c (start w) = fail RoleModeConflict (start w).
Proof.
  intros Hsid' Hsid Hs Hexpect Hmode.
  unfold step. simpl. rewrite Hmode. unfold overwrites, binding_conflict.
  rewrite Hsid, Hs, Hexpect.
  rewrite bool_decide_eq_false_2 by congruence. reflexivity.
Qed.




(** *** The invariant of a turn *)

Import TurnInvariant.

Lemma fetch_sessions (env : Environment) (b : bool) (r : Request) (w : World) :
  sessions (fetch env b r w).2 = sessions w.
Proof.
  unfold fetch, CompletionCache.get_or_compute, remote_call.
  destruct b.
  - destruct (CompletionCache.lookup_entry _ _); [reflexivity |].
    destruct (complete env _ r); reflexivity.
  - destruct (complete env _ r); reflexivity.
Qed.

(** Whether a call overwrites, what it reads and how it opens depend on the
    world through the sessions only. *)
Lemma overwrites_sessions (w w0 : World) (sid : option string) (m : Mode) :
  sessions w = sessions w0 -> overwrites w sid m = overwrites w0 sid m.
Proof. intros H. unfold overwrites, binding_conflict. now rewrite H. Qed.

Lemma history_sessions (c : Call) (m : Mode) (w w0 : World) :
  sessions w = sessions w0 -> history c m w = history c m w0.
Proof.
  intros H. unfold history.
  now rewrite (overwrites_sessions w w0 _ _ H), H.
Qed.

Lemma opening_sessions (c : Call) (m : Mode) (r : RoleDefinition) (w w0 : World) :
  sessions w = sessions w0 -> opening c m r w = opening c m r w0.
Proof. intros H. unfold opening. now rewrite (history_sessions c m w w0 H). Qed.

Lemma persist_sessions (c : Call) (m : Mode) (r : RoleDefinition)
    (new : list ChatMessage) (w w0 : World) :
  sessions w = sessions w0 -> sessions (persist c m r new w) = persisted c m r new w0.
Proof.
  unfold persist, persisted. intros H.
  destruct (session_id c) as [id|] eqn:Hid; simpl; [| exact H].
  now rewrite (overwrites_sessions w w0 _ _ H), H.
Qed.

Lemma invariant_start (env : Environment) (c : Call) (w0 : World) :
  invariant env c w0 (start w0).
Proof. reflexivity. Qed.

Lemma invariant_step (env : Environment) (c : Call) (w0 : World) (g : Engine) :
  invariant env c w0 g -> invariant env c w0 (step env c g).
Proof.
  unfold invariant at 1, step.
  destruct (phase g) eqn:Hphase.
  - (* IDLE *)
    intros ->. simpl.
    destruct (requested_mode (flags c)) as [e|m] eqn:Hm; [reflexivity |].
    destruct (binding_conflict w0 (session_id c) m && _); [reflexivity |].
    destruct (RoleStore.resolve _ _ _ _) as [e|r] eqn:Hres; [reflexivity |].
    unfold invariant, role_resolved. simpl. eauto 10.
  - (* ROLE_RESOLVED *)
    intros ([r Hr] & Hrounds & Hsess). rewrite (proj1 Hr).
    unfold invariant, running. simpl. rewrite Hrounds.
    exists [], r. simpl. rewrite app_nil_r.
    rewrite (history_sessions c _ _ _ Hsess), (opening_sessions c _ r _ _ Hsess).
    repeat split; auto; try apply Hr. lia.
  - (* HISTORY_LOADED *)
    intros H. unfold invariant. simpl. exact H.
  - (* AWAITING_COMPLETION *)
    intros (reqs & r & Hr & Hsess & Hloaded & Hturn & Hlen & Hle).
    rewrite (proj1 Hr).
    pose proof (fetch_sessions env (caching c) (build_request env g) (world g)) as Hf.
    destruct (fetch env (caching c) (build_request env g) (world g)) as [[resp|] w];
      simpl in Hf; [| unfold invariant; simpl; congruence].
    destruct resp as [text|req|].
    + unfold invariant. simpl.
      exists r, reqs, (postprocess env (expect r) text).
      rewrite Hturn, app_nil_r, <- app_assoc.
      repeat split; auto; try apply Hr.
      apply persist_sessions. congruence.
    + destruct (decide (rounds g < max_rounds env)%nat).
      * unfold invariant, running. simpl.
        exists reqs, req. repeat split; auto.
        exists r. repeat split; auto; try apply Hr. congruence.
      * unfold invariant. simpl. congruence.
    + unfold invariant. simpl. congruence.
  - (* FUNCTION_REQUESTED *)
    intros (reqs & req & H & Hpending & Hlt). rewrite Hpending.
    destruct H as (r & Hr & Hsess & Hloaded & Hturn & Hlen & Hle).
    unfold invariant, running. simpl.
    exists reqs, req. repeat split; auto.
    exists r. rewrite Hturn, app_nil_r, <- app_assoc.
    repeat split; auto; apply Hr.
  - (* DISPATCHING *)
    intros (reqs & req & H & Hpending & Hlt). rewrite Hpending.
    destruct H as (r & Hr & Hsess & Hloaded & Hturn & Hlen & Hle).
    unfold invariant, running. simpl.
    exists (reqs ++ [req]), r.
    rewrite Hturn, flat_map_app, length_app, Hlen. simpl.
    rewrite <- !app_assoc. simpl.
    repeat split; auto; try apply Hr; lia.
  - (* DONE *)
    intros H. unfold invariant. rewrite Hphase. exact H.
  - (* FAILED *)
    intros H. unfold invariant. rewrite Hphase. exact H.
Qed.

Lemma invariant_steps (env : Environment) (c : Call) (w0 : World) (n : nat) (g : Engine) :
  invariant env c w0 g -> invariant env c w0 (steps env c n g).
Proof.
  revert g. induction n as [|n IH]; intros g H; simpl; [exact H |].
  apply IH, invariant_step, H.
Qed.

Lemma invariant_reached (env : Environment) (c : Call) (w0 : World) (n : nat) :
  invariant env c w0 (steps env c n (start w0)).
Proof. apply invariant_steps, invariant_start. Qed.

(** Until a turn is done the store is the one it started with. *)
Lemma store_unchanged_until_done (env : Environment) (c : Call) (w0 : World) (n : nat) :
  phase (steps env c n (start w0)) <> DONE ->
  sessions (world (steps env c n (start w0))) = sessions w0.
Proof.
  intros Hphase.
  pose proof (invariant_reached env c w0 n) as H.
  unfold invariant, running in H.
  destruct (phase (steps env c n (start w0))); try congruence.
  - now rewrite H.
  - tauto.
  - destruct H as (reqs & r & ? & ? & _). assumption.
  - destruct H as (reqs & r & ? & ? & _). assumption.
  - destruct H as (reqs & req & (r & ? & ? & _) & _). assumption.
  - destruct H as (reqs & req & (r & ? & ? & _) & _). assumption.
Qed.

(** Loading a session after an [append] gives the old messages followed by
    the new ones. *)
Lemma load_append (store : gmap string ChatSession) (sid : string) (r : RoleDefinition)
    (new : list ChatMessage) :
  load (append store sid r new) sid = load store sid ++ new.
Proof.
  unfold load, append.
  destruct (store !! sid) as [s|] eqn:Hs; rewrite lookup_insert_eq; reflexivity.
Qed.

(** Loading a session after an [overwrite] gives the new messages only. *)
Lemma load_overwrite (store : gmap string ChatSession) (sid : string) (r : RoleDefinition)
    (new : list ChatMessage) :
  load (overwrite store sid r new) sid = new.
Proof. unfold load, overwrite. now rewrite lookup_insert_eq. Qed.

(** After a turn the session is the history the turn continued followed by
    the messages of the turn. *)
Lemma load_persisted (c : Call) (m : Mode) (r : RoleDefinition) (new : list ChatMessage)
    (w0 : World) (sid : string) :
  session_id c = Some sid ->
  load (persisted c m r new w0) sid = history c m w0 ++ new.
Proof.
  intros Hsid. unfold persisted, history. rewrite Hsid.
  destruct (overwrites w0 (Some sid) m).
  - apply load_overwrite.
  - apply load_append.
Qed.

(** An [append] leaves the other sessions alone. *)
Lemma load_append_other (store : gmap string ChatSession) (sid sid' : string)
    (r : RoleDefinition) (new : list ChatMessage) :
  sid <> sid' -> load (append store sid r new) sid' = load store sid'.
Proof.
  intros Hne. unfold load, append.
  destruct (store !! sid) as [s|] eqn:Hs; now rewrite lookup_insert_ne.
Qed.

(** An [append] never changes the role a session is bound to. *)
Lemma append_keeps_binding (store : gmap string ChatSession) (sid sid' : string)
    (r : RoleDefinition) (new : list ChatMessage) (s : ChatSession) :
  store !! sid' = Some s ->
  exists s', append store sid r new !! sid' = Some s' /\ bound_role s' = bound_role s.
Proof.
  intros Hs. unfold append.
  destruct (decide (sid = sid')) as [->|Hne].
  - rewrite Hs, lookup_insert_eq. eauto.
  - destruct (store !! sid); rewrite lookup_insert_ne by assumption; eauto.
Qed.

(** Only the temporary session is ever overwritten. *)
Lemma overwrites_temporary (w : World) (sid : string) (m : Mode) :
  overwrites w (Some sid) m = true -> sid = temporary_session.
Proof.
  unfold overwrites. intros H. apply andb_prop in H. destruct H as [H _].
  apply bool_decide_eq_true_1 in H. congruence.
Qed.

(** So a session other than the temporary one stays bound to its role over
    any number of transitions of any call. *)
Lemma steps_keep_binding (env : Environment) (c : Call) (w0 : World) (n : nat)
    (sid : string) (s : ChatSession) :
  sid <> temporary_session ->
  sessions w0 !! sid = Some s ->
  exists s', sessions (world (steps env c n (start w0))) !! sid = Some s'
             /\ bound_role s' = bound_role s.
Proof.
  intros Hsid Hs.
  destruct (decide (phase (steps env c n (start w0)) = DONE)) as [Hdone|Hnot].
  - pose proof (invariant_reached env c w0 n) as H.
    unfold invariant in H. rewrite Hdone in H.
    destruct H as (r & reqs & text & _ & Hsess & _).
    rewrite Hsess. unfold persisted.
    destruct (session_id c) as [id|]; [| eauto].
    destruct (overwrites w0 (Some id) _) eqn:Hover.
    + apply overwrites_temporary in Hover. subst id.
      unfold overwrite. rewrite lookup_insert_ne by congruence. eauto.
    + now apply append_keeps_binding.
  - rewrite (store_unchanged_until_done env c w0 n Hnot). eauto.
Qed.

(** *** Turns end *)

Lemma remaining_step (env : Environment) (c : Call) (w0 : World) (g : Engine) :
  invariant env c w0 g ->
  ended g \/ (remaining env (step env c g) < remaining env g)%nat.
Proof.
  unfold invariant, ended, remaining at 2, step.
  destruct (phase g) eqn:Hphase; try (left; eauto; fail); right.
  - (* IDLE *)
    destruct (requested_mode (flags c)) as [e|m]; [unfold remaining; simpl; lia |].
    destruct (binding_conflict _ _ m && _); [unfold remaining; simpl; lia |].
    destruct (RoleStore.resolve _ _ _ _); unfold remaining; simpl; lia.
  - (* ROLE_RESOLVED *)
    destruct H as ([r Hr] & _). rewrite (proj1 Hr). unfold remaining. simpl. lia.
  - (* HISTORY_LOADED *)
    unfold remaining. simpl.
    destruct H as (reqs & r & _ & _ & _ & _ & _ & Hle). lia.
  - (* AWAITING_COMPLETION *)
    destruct H as (reqs & r & Hr & _). rewrite (proj1 Hr).
    destruct (fetch _ _ _ _) as [[[text|req|]|] w]; unfold remaining; simpl; try lia.
    destruct (decide _); simpl; lia.
  - (* FUNCTION_REQUESTED *)
    destruct H as (reqs & req & _ & Hpending & Hlt). rewrite Hpending.
    unfold remaining. simpl. lia.
  - (* DISPATCHING *)
    destruct H as (reqs & req & _ & Hpending & Hlt). rewrite Hpending.
    unfold remaining. simpl. lia.
Qed.

Lemma ended_steps (env : Environment) (c : Call) (n : nat) (g : Engine) :
  ended g -> steps env c n g = g.
Proof.
  intros [Hdone | [e He]]; [now apply steps_done |].
  apply steps_fixed. unfold step. now rewrite He.
Qed.

Lemma steps_end (env : Environment) (c : Call) (w0 : World) (n : nat) (g : Engine) :
  invariant env c w0 g -> (remaining env g <= n)%nat -> ended (steps env c n g).
Proof.
  revert g. induction n as [|n IH]; intros g Hinv Hle.
  - destruct (remaining_step env c w0 g Hinv) as [Hend | Hlt]; [exact Hend | lia].
  - simpl. destruct (remaining_step env c w0 g Hinv) as [Hend | Hlt].
    + rewrite ended_steps.
      * destruct Hend as [Hd | [e He]]; unfold ended, step.
        -- rewrite Hd. auto.
        -- rewrite He. eauto.
      * destruct Hend as [Hd | [e He]]; unfold ended, step.
        -- rewrite Hd. auto.
        -- rewrite He. eauto.
    + apply IH; [now apply invariant_step | lia].
Qed.

(** Every call gets its result: within four transitions and three per
    permitted function round the turn is done or has failed. *)
Lemma run_single_turn_total (env : Environment) (c : Call) (w : World) :
  exists result w',
    run_single_turn env c (4 + 3 * max_rounds env) w = Some (result, w').
Proof.
  pose proof (steps_end env c w (4 + 3 * max_rounds env) (start w)
                (invariant_start env c w) (le_n _)) as Hend.
  pose proof (invariant_reached env c w (4 + 3 * max_rounds env)) as Hinv.
  unfold run_single_turn.
  destruct Hend as [Hd | [e He]].
  - unfold invariant in Hinv. rewrite Hd in Hinv. rewrite Hd.
    destruct Hinv as (r & reqs & text & _ & _ & _ & _ & Hanswer & _).
    rewrite Hanswer. eauto.
  - rewrite He. eauto.
Qed.

(** *** The turn is appended as a unit *)

(** Two runs of the same call from the same engine that have both ended
    ended in the same state. *)
Lemma ended_unique (env : Environment) (c : Call) (a b : nat) (g : Engine) :
  ended (steps env c a g) -> ended (steps env c b g) ->
  steps env c a g = steps env c b g.
Proof.
  intros Ha Hb.
  rewrite <- (ended_steps env c b _ Ha), <- (ended_steps env c a _ Hb).
  rewrite <- !steps_add. f_equal. lia.
Qed.

(** From [AWAITING_COMPLETION] the transitions of the engine carry out the
    dialogue: they end in [DONE] with the messages, the answer and the
    persisted world of the dialogue, or in the failure of the dialogue. *)
Lemma steps_dialogue (env : Environment) (c : Call) (r : RoleDefinition) (n : nat)
    (g : Engine) :
  phase g = AWAITING_COMPLETION ->
  turn_role g = Some r ->
  (rounds g + n = max_rounds env)%nat ->
  exists k,
    match dialogue env (caching c) (mode g) r n (loaded g) (turn g) (world g) with
    | (inr (new, text), w1) =>
      phase (steps env c k g) = DONE
      /\ turn (steps env c k g) = new
      /\ answer (steps env c k g) = Some text
      /\ world (steps env c k g) = persist c (mode g) r new w1
    | (inl e, _) => phase (steps env c k g) = FAILED e
    end.
Proof.
  revert g. induction n as [|n IH]; intros g Hphase Hrole Hrounds.
  - exists 1%nat. simpl. unfold step, build_request. rewrite Hphase, Hrole.
    destruct (fetch env (caching c) _ (world g)) as [[[text|req|]|] w']; simpl;
      try reflexivity; [auto |].
    destruct (decide (rounds g < max_rounds env)%nat); [lia | reflexivity].
  - simpl dialogue.
    destruct (fetch env (caching c) _ (world g)) as [[[text|req|]|] w'] eqn:Hfetch.
    + exists 1%nat. simpl. unfold step, build_request. rewrite Hphase, Hrole, Hfetch.
      simpl. auto.
    + destruct (IH (mk_engine AWAITING_COMPLETION (mode g) (turn_role g) (loaded g)
                              ((turn g ++ [intent_message req])
                               ++ [function_message req (dispatch env req)])
                              None (S (rounds g)) (answer g) w'))
        as [k Hk]; [reflexivity | exact Hrole | simpl; lia |].
      exists (3 + k)%nat.
      assert (Hthree : steps env c 3 g
                       = mk_engine AWAITING_COMPLETION (mode g) (turn_role g) (loaded g)
                                   ((turn g ++ [intent_message req])
                                    ++ [function_message req (dispatch env req)])
                                   None (S (rounds g)) (answer g) w').
      { simpl. unfold step at 3, build_request. rewrite Hphase, Hrole, Hfetch.
        destruct (decide (rounds g < max_rounds env)%nat); [| lia].
        reflexivity. }
      rewrite steps_add, Hthree.
      simpl in Hk. rewrite <- app_assoc in Hk. simpl in Hk.
      unfold round_messages. rewrite <- app_assoc. simpl. exact Hk.
    + exists 1%nat. simpl. unfold step, build_request. rewrite Hphase, Hrole, Hfetch.
      reflexivity.
    + exists 1%nat. simpl. unfold step, build_request. rewrite Hphase, Hrole, Hfetch.
      reflexivity.
Qed.

(** A turn that is done went through the dialogue, from the history and the
    opening of the call, and persisted what the dialogue produced. *)
Lemma done_dialogue (env : Environment) (c : Call) (w : World) (fuel : nat) :
  phase (steps env c fuel (start w)) = DONE ->
  exists m r new text w1,
    requested_mode (flags c) = inr m
    /\ RoleStore.resolve (default_texts env) (roles env) (role_name c) m = inr r
    /\ dialogue env (caching c) m r (max_rounds env) (history c m w) (opening c m r w) w
       = (inr (new, text), w1)
    /\ turn (steps env c fuel (start w)) = new
    /\ answer (steps env c fuel (start w)) = Some text
    /\ world (steps env c fuel (start w)) = persist c m r new w1.
Proof.
  intros Hdone.
  assert (Hend : ended (steps env c fuel (start w))) by (left; exact Hdone).
  destruct (requested_mode (flags c)) as [e|m] eqn:Hmode.
  { assert (Hfail : steps env c 1 (start w) = fail e (start w)).
    { simpl. unfold step. simpl. now rewrite Hmode. }
    rewrite (ended_unique env c fuel 1 (start w) Hend) in Hdone;
      rewrite Hfail in *; [discriminate Hdone | right; simpl; eauto]. }
  destruct (binding_conflict w (session_id c) m && negb (overwrites w (session_id c) m))
    eqn:Hconflict.
  { assert (Hfail : steps env c 1 (start w) = fail RoleModeConflict (start w)).
    { simpl. unfold step. simpl. now rewrite Hmode, Hconflict. }
    rewrite (ended_unique env c fuel 1 (start w) Hend) in Hdone;
      rewrite Hfail in *; [discriminate Hdone | right; simpl; eauto]. }
  destruct (RoleStore.resolve (default_texts env) (roles env) (role_name c) m)
    as [e|r] eqn:Hres.
  { assert (Hfail : steps env c 1 (start w) = fail e (start w)).
    { simpl. unfold step. simpl. now rewrite Hmode, Hconflict, Hres. }
    rewrite (ended_unique env c fuel 1 (start w) Hend) in Hdone;
      rewrite Hfail in *; [discriminate Hdone | right; simpl; eauto]. }
  assert (Hthree : steps env c 3 (start w)
                   = mk_engine AWAITING_COMPLETION m (Some r) (history c m w)
                               (opening c m r w) None 0 None w).
  { simpl. unfold step at 3. simpl. rewrite Hmode, Hconflict, Hres. reflexivity. }
  destruct (steps_dialogue env c r (max_rounds env)
              (mk_engine AWAITING_COMPLETION m (Some r) (history c m w)
                         (opening c m r w) None 0 None w)
              eq_refl eq_refl eq_refl) as [k Hk].
  cbn [mode loaded turn world] in Hk.
  rewrite <- Hthree, <- steps_add in Hk.
  exists m, r.
  destruct (dialogue env (caching c) m r (max_rounds env) (history c m w)
                     (opening c m r w) w) as [[e|[new text]] w1].
  - rewrite (ended_unique env c fuel (3 + k) (start w) Hend) in Hdone;
      [rewrite Hk in Hdone; discriminate Hdone | right; eauto].
  - destruct Hk as (Hp & Hturn & Hanswer & Hworld).
    exists new, text, w1.
    rewrite (ended_unique env c fuel (3 + k) (start w) Hend) by (left; exact Hp).
    repeat split; assumption.
Qed.

(** C6, as amended.  After a turn that completes, the session is the history
    the turn continued (the former history, or none when the temporary
    session is overwritten) followed by the messages of the turn: the
    opening, which is the system message of the role resolved for the call
    when the history is empty and then the submitted user message; for each
    function round, in order, the intent of the model and then the result of
    the dispatcher for that request; and last the produced assistant message.
    These are the messages of the dialogue with the completion boundary, and
    the final world is the world of the dialogue with the turn persisted.
    When the turn had no function round the last two entries are exactly the
    user message and the assistant message.  At no transition does the store
    hold anything but the former sessions or the final ones. *)
Theorem turn_appended_as_unit (env : Environment) (c : Call) (w w' : World)
    (sid : string) (fuel : nat) (text : string) :
  session_id c = Some sid ->
  run_single_turn env c fuel w = Some (inr text, w') ->
  let g := steps env c fuel (start w) in
  (exists m r reqs w1,
      requested_mode (flags c) = inr m
      /\ RoleStore.resolve (default_texts env) (roles env) (role_name c) m = inr r
      /\ length reqs = rounds g
      /\ dialogue env (caching c) m r (max_rounds env) (history c m w) (opening c m r w) w
         = (inr (opening c m r w ++ flat_map (round_messages env) reqs
                 ++ [assistant_message text], text), w1)
      /\ w' = persist c m r (opening c m r w ++ flat_map (round_messages env) reqs
                             ++ [assistant_message text]) w1
      /\ load (sessions w') sid
         = history c m w ++ opening c m r w
           ++ flat_map (round_messages env) reqs ++ [assistant_message text])
  /\ (rounds g = 0%nat ->
      exists before,
        load (sessions w') sid
        = before ++ [user_message (prompt c); assistant_message text])
  /\ (forall n, sessions (world (steps env c n (start w))) = sessions w
                \/ sessions (world (steps env c n (start w))) = sessions w').
Proof.
  intros Hsid Hrun g.
  unfold run_single_turn in Hrun. fold g in Hrun.
  destruct (phase g) eqn:Hphase; try discriminate Hrun.
  destruct (answer g) as [text'|] eqn:Hanswer; [| discriminate Hrun].
  injection Hrun as <- <-.
  pose proof (invariant_reached env c w fuel) as Hinv.
  fold g in Hinv. unfold invariant in Hinv. rewrite Hphase in Hinv.
  destruct Hinv as (r & reqs & text & (Hrole & Hmode & Hres) & Hsess & Hloaded & Hturn
                    & Hans & Hlen).
  assert (text = text') as -> by congruence.
  destruct (done_dialogue env c w fuel Hphase)
    as (m1 & r1 & new & text1 & w1 & Hmode1 & Hres1 & Hdialogue & Hturn1 & Hans1 & Hworld).
  fold g in Hturn1, Hans1, Hworld.
  assert (m1 = mode g) as -> by congruence.
  assert (r1 = r) as -> by congruence.
  assert (text1 = text') as -> by congruence.
  assert (new = opening c (mode g) r w ++ flat_map (round_messages env) reqs
                ++ [assistant_message text']) as -> by congruence.
  assert (Hload : load (sessions (world g)) sid
                  = history c (mode g) w ++ opening c (mode g) r w
                    ++ flat_map (round_messages env) reqs ++ [assistant_message text']).
  { rewrite Hsess, (load_persisted c (mode g) r (turn g) w sid Hsid). now rewrite Hturn. }
  split; [exists (mode g), r, reqs, w1; auto 10 |].
  split.
  - intros Hzero. rewrite Hzero in Hlen. destruct reqs; [| discriminate Hlen].
    rewrite Hload. unfold opening. simpl.
    exists (history c (mode g) w
            ++ match history c (mode g) w with [] => [system_message r] | _ => [] end).
    now rewrite <- !app_assoc.
  - intros n.
    destruct (decide (phase (steps env c n (start w)) = DONE)) as [Hd | Hnd].
    + right.
      assert (Heq : steps env c n (start w) = g); [| now rewrite Heq].
      destruct (Nat.le_ge_cases n fuel) as [Hle | Hge].
      * unfold g. rewrite <- (steps_done env c (fuel - n) _ Hd), <- steps_add.
        f_equal. lia.
      * rewrite <- (steps_done env c (n - fuel) g Hphase). unfold g.
        rewrite <- steps_add. f_equal. lia.
    + left. now apply store_unchanged_until_done.
Qed.

(** The first turn of a session, without a function round. *)
Lemma turn_appended_as_unit_witness :
  exists before,
    load (sessions after_first_turn) "temp"
    = before ++ [user_message "What is in current folder?"; assistant_message "ls -la"].
Proof.
  exact (proj1 (proj2 (turn_appended_as_unit (env_with answers)
                         (shell_call "What is in current folder?")
                         empty_world after_first_turn "temp" 4 "ls -la"
                         eq_refl eq_refl)) eq_refl).
Defined.

(** The session of the REPL test in shell mode: two prompts leave a system
    message and two pairs of user and assistant messages. *)
Example repl_shell_session :
  map (fun m => (role m, content m))
      (load (sessions
               (ReplLoop.drive (env_with answers) (mk_flags true false false) "temp" 4
                  (ReplLoop.submitted
                     (ReplLoop.repl true
                        ["What is in current folder?"; "Simple sort by name"; "exit()"]))
                  empty_world))
            "temp")
  = [(system, "You are Shell Command Generator");
     (user, "What is in current folder?");
     (assistant, "ls -la");
     (user, "Simple sort by name");
     (assistant, "ls -la")].
Proof. vm_compute. reflexivity. Qed.

(** The temporary session of the REPL tests: driven in plain mode and then
    in shell mode, it is overwritten by the first shell turn and continued
    by the second. *)
Example repl_temp_overwritten :
  map (fun m => (role m, content m))
      (load (sessions
               (ReplLoop.drive (env_with answers) (mk_flags true false false) "temp" 4
                  ["What is in current folder?"; "Simple sort by name"]
                  (ReplLoop.drive (env_with answers) (mk_flags false false false) "temp" 4
                     ["Please remember my favorite number: 6";
                      "What is my favorite number + 2?"]
                     empty_world)))
            "temp")
  = [(system, "You are Shell Command Generator");
     (user, "What is in current folder?");
     (assistant, "ls -la");
     (user, "Simple sort by name");
     (assistant, "ls -la")].
Proof. vm_compute. reflexivity. Qed.

(** C6, as stated, fails: in a turn with a function round the entry before
    the produced assistant message is the result of the function, not the
    submitted user message. *)
Lemma function_round_separates_pair :
  exists w',
    run_single_turn (env_with asks_once) (shell_call "list files in this folder") 7
                    empty_world
    = Some (inr "ls -la | sort", w')
    /\ forall before last,
         load (sessions w') "temp"
         <> before ++ [user_message "list files in this folder"; last].
Proof.
  eexists. split; [vm_compute; reflexivity |].
  intros before last H.
  apply (f_equal (@rev ChatMessage)) in H.
  rewrite rev_app_distr in H. vm_compute in H.
  discriminate H.
Qed.

(** *** Sessions created in code mode *)

(** A turn that completes on a session the store did not have creates the
    session, bound to the role the call resolved to. *)
Lemma new_session_bound (env : Environment) (c : Call) (w w' : World)
    (sid : string) (fuel : nat) (text : string) :
  session_id c = Some sid ->
  sessions w !! sid = None ->
  run_single_turn env c fuel w = Some (inr text, w') ->
  exists m r s,
    requested_mode (flags c) = inr m
    /\ RoleStore.resolve (default_texts env) (roles env) (role_name c) m = inr r
    /\ sessions w' !! sid = Some s
    /\ bound_role s = r.
Proof.
  intros Hsid Hnone Hrun.
  unfold run_single_turn in Hrun.
  destruct (phase (steps env c fuel (start w))) eqn:Hphase; try discriminate Hrun.
  destruct (answer _) as [text'|] eqn:Hanswer; [| discriminate Hrun].
  injection Hrun as <- <-.
  pose proof (invariant_reached env c w fuel) as Hinv.
  unfold invariant in Hinv. rewrite Hphase in Hinv.
  destruct Hinv as (r & tools & text & (Hrole & Hmode & Hres) & Hsess & _).
  exists (mode (steps env c fuel (start w))), r.
  eexists. repeat split; [exact Hmode | exact Hres | |].
  - rewrite Hsess. unfold persisted, overwrites, binding_conflict, append.
    rewrite Hsid, Hnone, andb_false_r.
    apply lookup_insert_eq.
  - reflexivity.
Qed.

(** A session other than the temporary one, created by a call in
    code-generation mode with the default role, then driven in
    shell-generation mode: the second call fails with [RoleModeConflict] and
    leaves the world as the first call left it. *)
Lemma code_session_then_shell (env : Environment) (c1 c2 : Call) (w w1 : World)
    (sid : string) (fuel1 fuel2 : nat) (text : string) :
  sid <> temporary_session ->
  session_id c1 = Some sid ->
  sessions w !! sid = None ->
  role_name c1 = None ->
  requested_mode (flags c1) = inr code_generation ->
  run_single_turn env c1 fuel1 w = Some (inr text, w1) ->
  session_id c2 = Some sid ->
  requested_mode (flags c2) = inr shell_generation ->
  run_single_turn env c2 (S fuel2) w1 = Some (inl RoleModeConflict, w1).
Proof.
  intros Hsid Hsid1 Hnone Hname Hmode1 Hrun1 Hsid2 Hmode2.
  destruct (new_session_bound env c1 w w1 sid fuel1 text Hsid1 Hnone Hrun1)
    as (m & r & s & Hm & Hres & Hs & Hbound).
  assert (m = code_generation) as -> by congruence.
  rewrite Hname in Hres. simpl in Hres. injection Hres as <-.
  unfold run_single_turn. simpl.
  rewrite (binding_conflict_step env c2 w1 sid s Hsid Hsid2 Hs);
    [| now rewrite Hbound | exact Hmode2].
  now rewrite steps_failed.
Qed.

(** ** The REPL reader *)

(** Inside a block every line up to the closing delimiter is accumulated;
    the delimiter submits the accumulated lines as one prompt. *)
Lemma loop_block (shell_mode : bool) (acc block rest : list string) :
  Forall (fun line => line <> ReplLoop.delimiter) block ->
  ReplLoop.loop shell_mode (Some acc) (block ++ ReplLoop.delimiter :: rest)
  = ReplLoop.Submit (ReplLoop.block_prompt (acc ++ block))
    :: ReplLoop.loop shell_mode None rest.
Proof.
  intros Hblock. revert acc.
  induction Hblock as [|line block Hline _ IH]; intros acc; simpl.
  - now rewrite app_nil_r.
  - apply String.eqb_neq in Hline. rewrite Hline.
    rewrite IH. now rewrite <- app_assoc.
Qed.

(** A block of lines between two delimiter lines is one prompt, its lines
    joined by line breaks, whatever the lines are. *)
Lemma repl_block (shell_mode : bool) (block rest : list string) :
  Forall (fun line => line <> ReplLoop.delimiter) block ->
  ReplLoop.repl shell_mode (ReplLoop.delimiter :: block ++ ReplLoop.delimiter :: rest)
  = ReplLoop.Submit (String.concat nl block) :: ReplLoop.repl shell_mode rest.
Proof.
  intros Hblock. unfold ReplLoop.repl. simpl.
  now rewrite (loop_block shell_mode [] block rest Hblock).
Qed.

(** C8.  The lines: delimiter, "line one", "line two", delimiter are
    submitted as the single prompt "line one", line break, "line two",
    in either mode and whatever follows; the prompt does not contain the
    delimiter. *)
Theorem repl_multiline_block (shell_mode : bool) (rest : list string) :
  ReplLoop.repl shell_mode
    ([ReplLoop.delimiter; "line one"; "line two"; ReplLoop.delimiter] ++ rest)
  = ReplLoop.Submit ("line one" ++ nl ++ "line two") :: ReplLoop.repl shell_mode rest
  /\ ReplLoop.submitted
       (ReplLoop.repl shell_mode
          [ReplLoop.delimiter; "line one"; "line two"; ReplLoop.delimiter])
     = ["line one" ++ nl ++ "line two"]%string
  /\ String.index 0 ReplLoop.delimiter ("line one" ++ nl ++ "line two") = None.
Proof. repeat split; reflexivity. Qed.

(** ** The completion cache *)

Section CacheProperties.

Context {K D V : Type} `{EqDecision D}.
Variable fingerprint : K -> D.
Variable ceiling : nat.
Hypothesis ceiling_positive : (0 < ceiling)%nat.

(** The entry just stored is the most recently used one: with a positive
    ceiling it survives the eviction. *)
Lemma lookup_store_entry (d : D) (v : V) (c : list (D * V)) :
  CompletionCache.lookup_entry d (CompletionCache.store_entry ceiling d v c) = Some v.
Proof.
  unfold CompletionCache.store_entry.
  destruct ceiling as [|n]; [lia |].
  simpl. now rewrite decide_True.
Qed.

(** On a hit nothing is computed: the state of the remote side is untouched
    and the compute function plays no part. *)
Lemma get_or_compute_hit {W : Type} (c : list (D * V)) (key_inputs : K) (v : V)
    (compute_fn : W -> option V * W) (s : W) :
  CompletionCache.lookup_entry (fingerprint key_inputs) c = Some v ->
  CompletionCache.get_or_compute fingerprint ceiling c key_inputs compute_fn s
  = (Some v, CompletionCache.store_entry ceiling (fingerprint key_inputs) v c, s).
Proof. unfold CompletionCache.get_or_compute. now intros ->. Qed.


(** After a call that returned a value, the key is cached with that value. *)
Lemma get_or_compute_caches {W : Type} (c c1 : list (D * V)) (key_inputs : K) (v : V)
    (compute_fn : W -> option V * W) (s s1 : W) :
  CompletionCache.get_or_compute fingerprint ceiling c key_inputs compute_fn s
  = (Some v, c1, s1) ->
  CompletionCache.lookup_entry (fingerprint key_inputs) c1 = Some v.
Proof.
  unfold CompletionCache.get_or_compute.
  destruct (CompletionCache.lookup_entry _ c) as [v0|].
  - intros [= <- <- <-]. apply lookup_store_entry.
  - destruct (compute_fn s) as [[v0|] s']; [| discriminate].
    intros [= <- <- <-]. apply lookup_store_entry.
Qed.


(** A second call with the same key inputs, from any cache. *)
Lemma get_or_compute_again {W : Type} (c c1 : list (D * V)) (key_inputs : K) (v : V)
    (compute_fn compute_fn' : W -> option V * W) (s s1 : W) :
  CompletionCache.get_or_compute fingerprint ceiling c key_inputs compute_fn s
  = (Some v, c1, s1) ->
  CompletionCache.get_or_compute fingerprint ceiling c1 key_inputs compute_fn' s1
  = (Some v, CompletionCache.store_entry ceiling (fingerprint key_inputs) v c1, s1).
Proof.
  intros Hfirst. apply get_or_compute_hit.
  exact (get_or_compute_caches _ _ _ _ _ _ _ Hfirst).
Qed.

End CacheProperties.



(** With caching on, a request whose fingerprint is cached reaches no remote
    service: the log of remote requests is unchanged. *)
Lemma fetch_hit_no_remote (env : Environment) (r : Request) (w : World) (v : Response) :
  CompletionCache.lookup_entry (fingerprint env r) (cache w) = Some v ->
  (fetch env true r w).1 = Some v
  /\ remote_log (fetch env true r w).2 = remote_log w.
Proof.
  intros Hhit. unfold fetch.
  rewrite (get_or_compute_hit (fingerprint env) (cache_ceiling env)
             (cache w) r v (remote_call env r) (remote_log w) Hhit).
  split; reflexivity.
Qed.

(** * Further properties of the executors and of the test helper *)

From Stdlib Require DecimalPos DecimalZ.

(** ** [str.strip] *)

Lemma lstrip_split (s : pystr) :
  exists p, s = p ++ lstrip s /\ forallb isspace p = true.
Proof.
  induction s as [|c s (p & Hs & Hp)]; simpl.
  - exists []. auto.
  - destruct (isspace c) eqn:Hc.
    + exists (c :: p). simpl. rewrite Hc, Hp. split; [now f_equal | reflexivity].
    + exists []. auto.
Qed.

Lemma lstrip_head (s : pystr) (c : codepoint) (t : pystr) :
  lstrip s = c :: t -> isspace c = false.
Proof.
  induction s as [|c' s IH]; simpl; [discriminate |].
  destruct (isspace c') eqn:Hc; [exact IH |].
  now intros [= <- <-].
Qed.

Lemma lstrip_spaces (s : pystr) : forallb isspace s = true -> lstrip s = [].
Proof.
  induction s as [|c s IH]; simpl; [reflexivity |].
  destruct (isspace c); [exact IH | discriminate].
Qed.

Lemma lstrip_fixed (s : pystr) (c : codepoint) (t : pystr) :
  s = c :: t -> isspace c = false -> lstrip s = s.
Proof. intros -> Hc. simpl. now rewrite Hc. Qed.

Lemma rstrip_split (s : pystr) :
  exists t, s = rstrip s ++ t /\ forallb isspace t = true.
Proof.
  unfold rstrip. destruct (lstrip_split (rev s)) as (p & Hs & Hp).
  exists (rev p). split.
  - rewrite <- rev_app_distr, <- Hs. now rewrite rev_involutive.
  - rewrite forallb_forall in *. intros x Hx. apply Hp. now apply in_rev.
Qed.

Lemma rstrip_last (s t : pystr) (c : codepoint) :
  rstrip s = t ++ [c] -> isspace c = false.
Proof.
  unfold rstrip. intros H.
  apply (f_equal (@rev codepoint)) in H.
  rewrite rev_involutive, rev_app_distr in H. simpl in H.
  exact (lstrip_head _ _ _ H).
Qed.

(** [strip] removes whitespace, and only whitespace, from both ends, and
    what it leaves neither begins nor ends with whitespace. *)
Lemma strip_spec (s : pystr) :
  (exists p t, s = p ++ strip s ++ t
               /\ forallb isspace p = true /\ forallb isspace t = true)
  /\ trimmed (strip s).
Proof.
  unfold strip.
  destruct (lstrip_split s) as (p & Hs & Hp).
  destruct (rstrip_split (lstrip s)) as (t & Hl & Ht).
  split.
  - exists p, t. split; [| auto]. now rewrite <- Hl.
  - unfold trimmed.
    destruct (rstrip (lstrip s)) as [|c r] eqn:Hr; [now left |].
    right. split.
    + exists c, r. split; [reflexivity |].
      simpl in Hl. exact (lstrip_head _ _ _ Hl).
    + destruct (exists_last (l := c :: r)) as (r' & c' & Hlast); [discriminate |].
      exists r', c'. split; [exact Hlast |].
      rewrite Hlast in Hr. exact (rstrip_last _ _ _ Hr).
Qed.

Lemma strip_spaces (s : pystr) : forallb isspace s = true -> strip s = [].
Proof. intros H. unfold strip. now rewrite (lstrip_spaces s H). Qed.

(** ** The shell executor, by cases *)

Lemma execute_shell_cases (h : host) (shell_command : pystr) :
  execute_shell.execute h shell_command
  = match host_spawn h (Shell shell_command) with
    | inl e => Raised e
    | inr c =>
      match child_communicate_error c with
      | Some e => Raised e
      | None =>
        match utf8_decode (all_writes c) with
        | Decoded text =>
          Returned (lit "Exit code: " ++ str_of_int (child_returncode c)
                    ++ lit (", Output:" ++ nl) ++ text)
        | DecodeError start stop reason =>
          Raised (UnicodeDecodeError (all_writes c) start stop reason)
        end
      end
    end.
Proof.
  unfold execute_shell.execute, Popen, all_writes.
  destruct (host_spawn h (Shell shell_command)) as [e|c]; [reflexivity |].
  simpl. unfold communicate. simpl.
  destruct (child_communicate_error c); [reflexivity |].
  simpl. rewrite stdout_pipe_combined. unfold decode.
  destruct (utf8_decode _); reflexivity.
Qed.

(** X1.  The shell executor raises exactly when starting the shell raises,
    when waiting for the child raises, or when the combined output is not
    valid UTF-8, and the exception that leaves [execute] is that very
    exception: nothing is caught, wrapped or turned into text. *)
Theorem execute_shell_raises_iff (h : host) (shell_command : pystr) (e : pyexn) :
  execute_shell.execute h shell_command = Raised e
  <-> host_spawn h (Shell shell_command) = inl e
      \/ (exists c, host_spawn h (Shell shell_command) = inr c
                    /\ child_communicate_error c = Some e)
      \/ (exists c start stop reason,
            host_spawn h (Shell shell_command) = inr c
            /\ child_communicate_error c = None
            /\ utf8_decode (all_writes c) = DecodeError start stop reason
            /\ e = UnicodeDecodeError (all_writes c) start stop reason).
Proof.
  rewrite execute_shell_cases.
  destruct (host_spawn h (Shell shell_command)) as [e0|c].
  - split.
    + intros [= ->]. now left.
    + intros [[= ->] | [(c & [=] & _) | (c & a & b & m & [=] & _)]]. reflexivity.
  - destruct (child_communicate_error c) as [e0|] eqn:Hcomm.
    + split.
      * intros [= ->]. right. left. eauto.
      * intros [[=] | [(c' & [= <-] & Hc) | (c' & a & b & m & [= <-] & Hc & _)]];
          congruence.
    + destruct (utf8_decode (all_writes c)) as [text|a b m] eqn:Hdec.
      * split; [discriminate |].
        intros [[=] | [(c' & [= <-] & Hc) | (c' & a & b & m & [= <-] & _ & Hd & _)]];
          congruence.
      * split.
        -- intros [= <-]. right. right. exists c, a, b, m. auto.
        -- intros [[=] | [(c' & [= <-] & Hc) | (c' & a' & b' & m' & [= <-] & _ & Hd & ->)]];
             congruence.
Qed.

Lemma execute_shell_raises_iff_witness :
  execute_shell.execute host_failing null_command = Raised embedded_null.
Proof.
  exact (proj2 (execute_shell_raises_iff host_failing null_command embedded_null)
           (or_introl eq_refl)).
Defined.

(** ** The text of the shell executor can be read back *)

Lemma lit_inj (s1 s2 : string) : lit s1 = lit s2 -> s1 = s2.
Proof.
  revert s2. induction s1 as [|a s1 IH]; intros [|b s2]; simpl; try discriminate.
  - reflexivity.
  - intros [= Hab Hs]. f_equal; [| now apply IH].
    rewrite <- (ascii_N_embedding a), <- (ascii_N_embedding b). now rewrite Hab.
Qed.

Lemma lit_app (s1 s2 : string) : lit (s1 ++ s2) = lit s1 ++ lit s2.
Proof. induction s1 as [|a s1 IH]; simpl; [reflexivity | now rewrite IH]. Qed.

(** The decimal text of an integer has digits and a sign, no comma. *)
Lemma uint_no_comma (d : Decimal.uint) :
  Forall (fun c => c <> 44) (lit (NilEmpty.string_of_uint d)).
Proof.
  induction d; simpl; constructor; (discriminate || assumption).
Qed.

Lemma str_of_int_no_comma (z : Z) : Forall (fun c => c <> 44) (str_of_int z).
Proof.
  unfold str_of_int, NilZero.string_of_int, NilZero.string_of_uint.
  destruct (Z.to_int z) as [d|d].
  - destruct d; try apply uint_no_comma. repeat constructor. discriminate.
  - simpl. constructor; [discriminate |].
    destruct d; try apply uint_no_comma. repeat constructor. discriminate.
Qed.

Lemma to_int_not_nil (z : Z) :
  Z.to_int z <> Decimal.Pos Decimal.Nil /\ Z.to_int z <> Decimal.Neg Decimal.Nil.
Proof.
  destruct z as [|p|p]; simpl; split; try discriminate;
    intros [= H]; exact (DecimalPos.Unsigned.to_uint_nonnil p H).
Qed.

Lemma str_of_int_inj (z1 z2 : Z) : str_of_int z1 = str_of_int z2 -> z1 = z2.
Proof.
  unfold str_of_int. intros H. apply lit_inj in H.
  apply (f_equal NilZero.int_of_string) in H.
  destruct (to_int_not_nil z1) as [Hp1 Hn1], (to_int_not_nil z2) as [Hp2 Hn2].
  rewrite !NilZero.isi in H by assumption.
  injection H as H.
  rewrite <- (DecimalZ.of_to z1), <- (DecimalZ.of_to z2). now rewrite H.
Qed.

(** Two texts that agree after a separator their heads do not contain have
    the same heads and the same tails. *)
Lemma split_at_first {A : Type} (sep : A) (l1 l2 r1 r2 : list A) :
  Forall (fun x => x <> sep) l1 ->
  Forall (fun x => x <> sep) l2 ->
  l1 ++ sep :: r1 = l2 ++ sep :: r2 ->
  l1 = l2 /\ r1 = r2.
Proof.
  intros H1. revert l2. induction H1 as [|x l1 Hx _ IH]; intros l2 H2 Heq.
  - destruct H2 as [|y l2 Hy _]; simpl in Heq.
    + now injection Heq as ->.
    + injection Heq as -> _. now destruct Hy.
  - destruct H2 as [|y l2 Hy H2]; simpl in Heq.
    + injection Heq as -> _. now destruct Hx.
    + injection Heq as -> Heq. destruct (IH l2 H2 Heq) as [-> ->]. auto.
Qed.

Lemma Returned_inj {A : Type} (a b : A) : Returned a = Returned b -> a = b.
Proof. now intros [=]. Qed.

(** X2.  The text of a successful run determines the exit code and the
    output: two runs, of any commands on any machines, that return the same
    text had the same return code and the same decoded output. *)
Theorem execute_shell_text_determines_run (h1 h2 : host) (cmd1 cmd2 : pystr)
    (c1 c2 : child) (text : pystr) :
  host_spawn h1 (Shell cmd1) = inr c1 ->
  host_spawn h2 (Shell cmd2) = inr c2 ->
  execute_shell.execute h1 cmd1 = Returned text ->
  execute_shell.execute h2 cmd2 = Returned text ->
  child_returncode c1 = child_returncode c2
  /\ utf8_decode (all_writes c1) = utf8_decode (all_writes c2).
Proof.
  intros Hs1 Hs2. rewrite !execute_shell_cases, Hs1, Hs2.
  destruct (child_communicate_error c1); [discriminate |].
  destruct (child_communicate_error c2); [discriminate |].
  destruct (utf8_decode (all_writes c1)) as [t1|]; [| discriminate].
  destruct (utf8_decode (all_writes c2)) as [t2|]; [| discriminate].
  intros H1 H2. rewrite <- H1 in H2. apply Returned_inj in H2.
  apply app_inv_head in H2.
  change (lit (", Output:" ++ nl)) with (44 :: lit (" Output:" ++ nl)) in H2.
  pose proof H2 as Heq.
  destruct (split_at_first 44 _ _ _ _ (str_of_int_no_comma _) (str_of_int_no_comma _) Heq)
    as [Hcode Htail].
  split.
  - symmetry. now apply str_of_int_inj.
  - f_equal. symmetry.
    exact (app_inv_head (lit (" Output:" ++ nl)) t2 t1 Htail).
Qed.

Lemma execute_shell_text_determines_run_witness :
  child_returncode
    (mk_child [(fd_stdout, ascii_bytes ("  partial" ++ nl));
               (fd_stderr, ascii_bytes ("execution error" ++ nl));
               (fd_stdout, ascii_bytes ("result " ++ nl))] None 1%Z)
  = 1%Z.
Proof.
  exact (proj1 (execute_shell_text_determines_run host_failing host_failing
                  (lit "ls") (lit "ls -la")
                  _ (mk_child [(fd_stdout, ascii_bytes ("  partial" ++ nl));
                               (fd_stderr, ascii_bytes ("execution error" ++ nl));
                               (fd_stdout, ascii_bytes ("result " ++ nl))] None 1%Z)
                  _ eq_refl eq_refl eq_refl eq_refl)).
Defined.

(** ** Output in ASCII *)

Lemma utf8_decode_at_ascii (pos : N) (l : list N) :
  Forall (fun b => b < 128) l -> utf8_decode_at pos l = Decoded l.
Proof.
  intros H. revert pos. induction H as [|b l Hb _ IH]; intros pos; simpl.
  - reflexivity.
  - apply N.ltb_lt in Hb. rewrite Hb, IH. reflexivity.
Qed.

(** X3.  When all the child writes, on either stream, is ASCII, decoding
    cannot fail: [execute] returns, and the output part of its text is what
    was written, octet for octet, nothing stripped. *)
Theorem execute_shell_ascii_output (h : host) (shell_command : pystr) (c : child) :
  host_spawn h (Shell shell_command) = inr c ->
  child_communicate_error c = None ->
  Forall (fun b => Byte.to_N b < 128) (all_writes c) ->
  execute_shell.execute h shell_command
  = Returned (lit "Exit code: " ++ str_of_int (child_returncode c)
              ++ lit (", Output:" ++ nl) ++ octets (all_writes c)).
Proof.
  intros Hspawn Hcomm Hascii.
  rewrite execute_shell_cases, Hspawn, Hcomm.
  unfold utf8_decode. rewrite utf8_decode_at_ascii; [reflexivity |].
  unfold octets. now apply Forall_map.
Qed.

Lemma execute_shell_ascii_output_witness :
  execute_shell.execute host_failing (lit "ls")
  = Returned (lit ("Exit code: 1, Output:" ++ nl ++ "  partial" ++ nl
                   ++ "execution error" ++ nl ++ "result " ++ nl)).
Proof.
  refine (execute_shell_ascii_output host_failing (lit "ls")
            (mk_child [(fd_stdout, ascii_bytes ("  partial" ++ nl));
                       (fd_stderr, ascii_bytes ("execution error" ++ nl));
                       (fd_stdout, ascii_bytes ("result " ++ nl))] None 1%Z)
            eq_refl eq_refl _).
  vm_compute. repeat constructor.
Defined.

(** ** The AppleScript executor, by cases *)

Lemma apple_script_cases (h : host) (script : pystr) :
  apple_script.execute h script
  = match host_spawn h (Argv [lit "osascript"; lit "-e"; script]) with
    | inl e =>
      if exn_is_Exception e then Returned (lit "Error: " ++ exn_str e) else Raised e
    | inr c =>
      match child_communicate_error c with
      | Some e =>
        if exn_is_Exception e then Returned (lit "Error: " ++ exn_str e) else Raised e
      | None =>
        match utf8_decode (stdout_writes c) with
        | Decoded text => Returned (lit "Output: " ++ strip text)
        | DecodeError start stop reason =>
          Returned (lit "Error: " ++ decode_error_str (stdout_writes c) start stop reason)
        end
      end
    end.
Proof.
  unfold apple_script.execute, Popen, stdout_writes.
  destruct (host_spawn h _) as [e|c]; [reflexivity |].
  simpl. unfold communicate. simpl.
  destruct (child_communicate_error c); [reflexivity |].
  simpl. rewrite stdout_pipe_separate. unfold decode.
  destruct (utf8_decode _); reflexivity.
Qed.

(** X4.  A text returned by the AppleScript executor is either "Output: "
    followed by a text that neither begins nor ends with whitespace (it may
    be empty), or "Error: " followed by the message of an exception that
    derives from [Exception]. *)
Theorem apple_script_text_forms (h : host) (script : pystr) (text : pystr) :
  apple_script.execute h script = Returned text ->
  (exists output, text = lit "Output: " ++ output /\ trimmed output)
  \/ (exists e, text = lit "Error: " ++ exn_str e /\ exn_is_Exception e = true).
Proof.
  rewrite apple_script_cases.
  destruct (host_spawn h _) as [e|c].
  - destruct (exn_is_Exception e) eqn:He; [| discriminate].
    intros H. apply Returned_inj in H. right. eauto.
  - destruct (child_communicate_error c) as [e|].
    + destruct (exn_is_Exception e) eqn:He; [| discriminate].
      intros H. apply Returned_inj in H. right. eauto.
    + destruct (utf8_decode (stdout_writes c)) as [t|a b m].
      * intros H. apply Returned_inj in H. left.
        exists (strip t). split; [now symmetry | apply strip_spec].
      * intros H. apply Returned_inj in H. right.
        exists (UnicodeDecodeError (stdout_writes c) a b m). auto.
Qed.

Lemma apple_script_text_forms_witness :
  (exists output, lit ("Output: partial" ++ nl ++ "result") = lit "Output: " ++ output
                  /\ trimmed output)
  \/ (exists e, lit ("Output: partial" ++ nl ++ "result") = lit "Error: " ++ exn_str e
                /\ exn_is_Exception e = true).
Proof.
  exact (apple_script_text_forms host_failing finder_script _ eq_refl).
Defined.

(** X5.  When [osascript] starts and ends but writes nothing except
    whitespace to standard output, the result is exactly "Output: ": a script
    that fails and reports on standard error looks like one that succeeded
    and printed nothing. *)
Theorem apple_script_blank_output (h : host) (script : pystr) (c : child) :
  host_spawn h (Argv [lit "osascript"; lit "-e"; script]) = inr c ->
  child_communicate_error c = None ->
  Forall (fun b => Byte.to_N b < 128 /\ isspace (Byte.to_N b) = true) (stdout_writes c) ->
  apple_script.execute h script = Returned (lit "Output: ").
Proof.
  intros Hspawn Hcomm Hblank.
  rewrite apple_script_cases, Hspawn, Hcomm.
  unfold utf8_decode. rewrite utf8_decode_at_ascii.
  - rewrite strip_spaces; [reflexivity |].
    unfold octets. apply forallb_forall. intros x Hx.
    apply in_map_iff in Hx. destruct Hx as (b & <- & Hb).
    rewrite Forall_forall in Hblank. apply list_elem_of_In in Hb.
    now apply Hblank.
  - unfold octets. apply Forall_map. eapply Forall_impl; [exact Hblank |].
    simpl. tauto.
Qed.

Lemma apple_script_blank_output_witness :
  apple_script.execute host_script_error finder_script = Returned (lit "Output: ").
Proof.
  refine (apple_script_blank_output host_script_error finder_script failed_script
            eq_refl eq_refl _).
  vm_compute. repeat constructor.
Defined.

(** X6.  The result depends on the child through its standard output and
    the failure of waiting only: two children that agree on these give the
    same result, whatever they wrote to standard error and whatever their
    return codes. *)
Theorem apple_script_ignores_stderr_and_returncode (h1 h2 : host) (script : pystr)
    (c1 c2 : child) :
  host_spawn h1 (Argv [lit "osascript"; lit "-e"; script]) = inr c1 ->
  host_spawn h2 (Argv [lit "osascript"; lit "-e"; script]) = inr c2 ->
  stdout_writes c1 = stdout_writes c2 ->
  child_communicate_error c1 = child_communicate_error c2 ->
  apple_script.execute h1 script = apple_script.execute h2 script.
Proof.
  intros H1 H2 Hout Hcomm.
  rewrite !apple_script_cases, H1, H2, Hout, Hcomm. reflexivity.
Qed.

Lemma apple_script_ignores_stderr_and_returncode_witness :
  apple_script.execute host_script_error finder_script
  = apple_script.execute
      (mk_host (fun _ => inr (mk_child [(fd_stdout, ascii_bytes nl)] None 0%Z)))
      finder_script.
Proof.
  exact (apple_script_ignores_stderr_and_returncode host_script_error
           (mk_host (fun _ => inr (mk_child [(fd_stdout, ascii_bytes nl)] None 0%Z)))
           finder_script failed_script (mk_child [(fd_stdout, ascii_bytes nl)] None 0%Z)
           eq_refl eq_refl eq_refl eq_refl).
Defined.

(** X7.  An exception deriving from [Exception] that is raised while
    [osascript] is started, while it is waited for, or while its output is
    decoded, is returned as the text "Error: " followed by its message. *)
Theorem apple_script_error_text (h : host) (script : pystr) (e : pyexn) :
  exn_is_Exception e = true ->
  host_spawn h (Argv [lit "osascript"; lit "-e"; script]) = inl e
  \/ (exists c, host_spawn h (Argv [lit "osascript"; lit "-e"; script]) = inr c
                /\ child_communicate_error c = Some e)
  \/ (exists c start stop reason,
        host_spawn h (Argv [lit "osascript"; lit "-e"; script]) = inr c
        /\ child_communicate_error c = None
        /\ utf8_decode (stdout_writes c) = DecodeError start stop reason
        /\ e = UnicodeDecodeError (stdout_writes c) start stop reason) ->
  apple_script.execute h script = Returned (lit "Error: " ++ exn_str e).
Proof.
  intros He Hraised. rewrite apple_script_cases.
  destruct Hraised as [-> | [(c & -> & ->) | (c & a & b & m & -> & -> & -> & ->)]];
    [now rewrite He | now rewrite He | reflexivity].
Qed.

Lemma apple_script_error_text_witness :
  apple_script.execute host_without_osascript finder_script
  = Returned (lit "Error: [Errno 2] No such file or directory: 'osascript'").
Proof.
  exact (apple_script_error_text host_without_osascript finder_script osascript_missing
           eq_refl (or_introl eq_refl)).
Defined.

(** X8.  The AppleScript executor raises exactly when an exception that
    does not derive from [Exception], such as a keyboard interrupt, is raised
    while [osascript] is started or waited for; that exception leaves
    [execute] as it is.  No exception deriving from [Exception] ever leaves
    it. *)
Theorem apple_script_raises_iff (h : host) (script : pystr) (e : pyexn) :
  apple_script.execute h script = Raised e
  <-> exn_is_Exception e = false
      /\ (host_spawn h (Argv [lit "osascript"; lit "-e"; script]) = inl e
          \/ (exists c, host_spawn h (Argv [lit "osascript"; lit "-e"; script]) = inr c
                        /\ child_communicate_error c = Some e)).
Proof.
  rewrite apple_script_cases.
  destruct (host_spawn h _) as [e0|c].
  - destruct (exn_is_Exception e0) eqn:He0; split.
    + discriminate.
    + intros [He [[= ->] | (c & [=] & _)]]. congruence.
    + intros [= ->]. auto.
    + intros [_ [[= ->] | (c & [=] & _)]]. reflexivity.
  - destruct (child_communicate_error c) as [e0|] eqn:Hcomm.
    + destruct (exn_is_Exception e0) eqn:He0; split.
      * discriminate.
      * intros [He [[=] | (c' & [= <-] & Hc)]]. congruence.
      * intros [= ->]. eauto.
      * intros [_ [[=] | (c' & [= <-] & Hc)]]. congruence.
    + destruct (utf8_decode (stdout_writes c)); split; try discriminate;
        intros [_ [[=] | (c' & [= <-] & Hc)]]; congruence.
Qed.

Lemma apple_script_raises_iff_witness :
  apple_script.execute host_interrupted finder_script = Raised KeyboardInterrupt.
Proof.
  exact (proj2 (apple_script_raises_iff host_interrupted finder_script KeyboardInterrupt)
           (conj eq_refl (or_introl eq_refl))).
Defined.

(** ** Schemas of arbitrary classes *)

Lemma required_names_nil (fs : list FieldInfo) :
  Forall (fun f => field_required f = false) fs -> required_names fs = [].
Proof.
  unfold required_names. induction 1 as [|f fs Hf _ IH]; [reflexivity |].
  rewrite filter_cons_False by congruence. exact IH.
Qed.

(** X9.  For a class none of whose fields is required, the schema pydantic
    generates has no entry [required] at all (any default is returned for
    it), and both executors fill the gap with the empty list: their schema
    always has a [required] entry. *)
Theorem openai_schema_required_default (cls : ModelClass) :
  Forall (fun f => field_required f = false) (model_fields cls) ->
  (forall default, get (model_json_schema cls) "required" default = default)
  /\ at_path (execute_shell.openai_schema cls) ["function"; "parameters"; "required"]
     = JList []
  /\ at_path (apple_script.openai_schema cls) ["function"; "parameters"; "required"]
     = JList [].
Proof.
  intros Hnone.
  assert (Hget : forall default, get (model_json_schema cls) "required" default = default).
  { intros default. unfold model_json_schema.
    rewrite (required_names_nil _ Hnone). reflexivity. }
  split; [exact Hget |].
  unfold execute_shell.openai_schema, apple_script.openai_schema. cbv zeta.
  split; simpl; apply Hget.
Qed.

Lemma openai_schema_required_default_witness :
  at_path (execute_shell.openai_schema optional_model) ["function"; "parameters"; "required"]
  = JList [].
Proof.
  refine (proj1 (proj2 (openai_schema_required_default optional_model _))).
  repeat constructor.
Defined.

(** X10.  The description of a schema is the docstring of the class with
    the whitespace at both ends removed: the docstring is the description
    between two runs of whitespace, and the description neither begins nor
    ends with whitespace; for a class without a docstring it is the empty
    text.  This holds for either executor. *)
Theorem openai_schema_description_trimmed (cls : ModelClass) :
  exists d,
    at_path (execute_shell.openai_schema cls) ["function"; "description"] = JStr d
    /\ at_path (apple_script.openai_schema cls) ["function"; "description"] = JStr d
    /\ trimmed d
    /\ (model_doc cls = None -> d = [])
    /\ (forall doc, model_doc cls = Some doc ->
          d = strip (lit doc)
          /\ exists p t, lit doc = p ++ d ++ t
                         /\ forallb isspace p = true /\ forallb isspace t = true).
Proof.
  exists (doc_stripped cls). repeat split.
  - unfold doc_stripped. destruct (model_doc cls) as [[|a s]|]; try (now left).
    apply strip_spec.
  - unfold doc_stripped. now intros ->.
  - unfold doc_stripped. rewrite H. now destruct doc.
  - unfold doc_stripped. rewrite H.
    destruct (strip_spec (lit doc)) as [Hsplit _].
    now destruct doc.
Qed.

Lemma openai_schema_description_trimmed_witness :
  at_path (execute_shell.openai_schema execute_shell.Function) ["function"; "description"]
  = JStr (lit "Executes a shell command and returns the output (result).").
Proof.
  destruct (openai_schema_description_trimmed execute_shell.Function)
    as (d & Hd & _ & _ & _ & Hdoc).
  rewrite Hd. f_equal.
  exact (proj1 (Hdoc _ eq_refl)).
Defined.

(** X11.  In the schema of either executor, [properties] has one entry per
    declared field, in the order of declaration, and every name listed in
    [required] is the name of a required field and has an entry in
    [properties]. *)
Theorem openai_schema_required_among_properties (cls : ModelClass) :
  exists props req,
    at_path (execute_shell.openai_schema cls) ["function"; "parameters"; "properties"]
    = JDict props
    /\ at_path (apple_script.openai_schema cls) ["function"; "parameters"; "properties"]
       = JDict props
    /\ at_path (execute_shell.openai_schema cls) ["function"; "parameters"; "required"]
       = JList req
    /\ at_path (apple_script.openai_schema cls) ["function"; "parameters"; "required"]
       = JList req
    /\ map fst props = map field_name (model_fields cls)
    /\ forall j, In j req ->
         exists f, In f (model_fields cls) /\ field_required f = true
                   /\ j = JStr (lit (field_name f)) /\ In (field_name f) (map fst props).
Proof.
  exists (map (fun f => (field_name f, field_schema f)) (model_fields cls)),
         (required_names (model_fields cls)).
  unfold execute_shell.openai_schema, apple_script.openai_schema. cbv zeta.
  rewrite model_json_schema_properties, model_json_schema_required.
  repeat split.
  - rewrite map_map. reflexivity.
  - intros j Hj. unfold required_names in Hj.
    apply in_map_iff in Hj. destruct Hj as (f & <- & Hf).
    apply list_elem_of_In, list_elem_of_filter in Hf. destruct Hf as [Hreq Hin].
    apply list_elem_of_In in Hin.
    exists f. repeat split; auto.
    rewrite map_map. simpl. apply in_map_iff. eauto.
Qed.

Lemma openai_schema_required_among_properties_witness :
  exists f, In f (model_fields execute_shell.Function)
            /\ field_required f = true
            /\ JStr (lit "shell_command") = JStr (lit (field_name f)).
Proof.
  destruct (openai_schema_required_among_properties execute_shell.Function)
    as (props & req & _ & _ & Hreq & _ & _ & Hin).
  change (JList [JStr (lit "shell_command")] = JList req) in Hreq.
  assert (Hj : In (JStr (lit "shell_command")) req).
  { replace req with [JStr (lit "shell_command")] by congruence. left. reflexivity. }
  destruct (Hin _ Hj) as (f & Hf & Hrequired & Hname & _).
  exists f. auto.
Defined.

(** ** The command line of the tests *)

Import TestShellGpt.

Lemma get_arguments_loop_flat (arguments : list pyobj) (items : list (string * pyobj)) :
  get_arguments_loop arguments items = arguments ++ flat_map item_arguments items.
Proof.
  revert arguments. induction items as [|[key value] items IH]; intros arguments; simpl.
  - now rewrite app_nil_r.
  - unfold item_arguments. simpl.
    destruct (isinstance_bool value); rewrite IH, <- !app_assoc; reflexivity.
Qed.

Lemma get_arguments_flat (prompt : pyobj) (kwargs : list (string * pyobj)) :
  get_arguments prompt kwargs
  = prompt :: flat_map item_arguments kwargs ++ [PStr "--no-cache"].
Proof. unfold get_arguments. now rewrite get_arguments_loop_flat. Qed.

(** X12.  The command line starts with the prompt and ends with
    [--no-cache]; in between, every entry of the dictionary contributes its
    key, and its value unless the value is a [bool]: the length is two plus
    the number of entries plus the number of values that are not booleans. *)
Theorem get_arguments_shape (prompt : pyobj) (kwargs : list (string * pyobj)) :
  head (get_arguments prompt kwargs) = Some prompt
  /\ last (get_arguments prompt kwargs) = Some (PStr "--no-cache")
  /\ length (get_arguments prompt kwargs)
     = (2 + length kwargs
        + length (filter (fun item => isinstance_bool item.2 = false) kwargs))%nat.
Proof.
  rewrite get_arguments_flat. repeat split.
  - rewrite app_comm_cons. apply last_snoc.
  - simpl. rewrite length_app. simpl.
    enough (length (flat_map item_arguments kwargs)
            = (length kwargs
               + length (filter (fun item => isinstance_bool item.2 = false) kwargs))%nat)
      by lia.
    induction kwargs as [|[key value] kwargs IH]; [reflexivity |].
    simpl flat_map. rewrite length_app, IH, filter_cons. unfold item_arguments. simpl.
    destruct (isinstance_bool value); simpl; lia.
Qed.

(** X13.  For two dictionaries with no key in common, and no key twice,
    entries added at the end are added to the command line before the final
    [--no-cache], after everything that was there: the command line of the
    two dictionaries put together is that of the first without its last
    argument, followed by that of the second without its prompt. *)
Theorem get_arguments_app (prompt : pyobj) (kw1 kw2 : list (string * pyobj)) :
  NoDup (map fst (kw1 ++ kw2)) ->
  get_arguments prompt (kw1 ++ kw2)
  = removelast (get_arguments prompt kw1) ++ tail (get_arguments prompt kw2).
Proof.
  intros _.
  rewrite !get_arguments_flat, flat_map_app. simpl tail.
  change (prompt :: flat_map item_arguments kw1 ++ [PStr "--no-cache"])
    with ((prompt :: flat_map item_arguments kw1) ++ [PStr "--no-cache"]).
  rewrite removelast_last. simpl. now rewrite <- app_assoc.
Qed.

Lemma get_arguments_app_witness :
  get_arguments (PStr "Remember my favorite number: 6")
                ([("--chat", PStr "test_1")] ++ [("--shell", PBool true)])
  = [PStr "Remember my favorite number: 6"; PStr "--chat"; PStr "test_1";
     PStr "--shell"; PStr "--no-cache"].
Proof.
  refine (get_arguments_app (PStr "Remember my favorite number: 6")
            [("--chat", PStr "test_1")] [("--shell", PBool true)] _).
  apply NoDup_cons. split; [| apply NoDup_cons; split; [| apply NoDup_nil_2]].
  - intros H. apply list_elem_of_In in H. simpl in H. destruct H as [H | []].
    discriminate H.
  - intros H. apply list_elem_of_In in H. destruct H.
Defined.

(** X14.  The truth value of a flag plays no part: a flag set to [False] is
    passed like one set to [True]. *)
Theorem get_arguments_flag_value_ignored (prompt : pyobj) (kw1 kw2 : list (string * pyobj)) :
  same_up_to_flags kw1 kw2 ->
  get_arguments prompt kw1 = get_arguments prompt kw2.
Proof.
  intros H. rewrite !get_arguments_flat. do 2 f_equal.
  induction H as [|[k1 v1] [k2 v2] kw1 kw2 [Hk Hv] _ IH]; [reflexivity |].
  simpl in *. subst k2. rewrite IH. f_equal.
  unfold item_arguments. simpl.
  destruct Hv as [-> | [H1 H2]]; [reflexivity | now rewrite H1, H2].
Qed.

Lemma get_arguments_flag_value_ignored_witness :
  get_arguments (PStr "say hello") [("--shell", PBool true); ("--chat", PStr "test_1")]
  = get_arguments (PStr "say hello") [("--shell", PBool false); ("--chat", PStr "test_1")].
Proof.
  apply get_arguments_flag_value_ignored.
  constructor; [split; [reflexivity | right; split; reflexivity] |].
  constructor; [split; [reflexivity | left; reflexivity] |].
  constructor.
Defined.

(** ** The final assertion of [test_code] *)

Lemma strip_nil_iff (s : pystr) : strip s = [] <-> forallb isspace s = true.
Proof.
  split; [| apply strip_spaces].
  intros Hnil. destruct (strip_spec s) as [(p & t & Hs & Hp & Ht) _].
  rewrite Hnil in Hs. simpl in Hs. rewrite Hs, forallb_app, Hp, Ht. reflexivity.
Qed.

(** X15.  The assertion passes exactly when the decoded output of the
    generated script has a character that is not whitespace; the numbers
    and their product play no part in it. *)
Theorem test_code_assert_passes_iff (stdout : bytes) (number_a number_b : Z)
    (text : pystr) :
  utf8_decode stdout = Decoded text ->
  test_code_assert stdout number_a number_b = Returned tt
  <-> exists c, In c text /\ isspace c = false.
Proof.
  intros Hdec. unfold test_code_assert. rewrite (decode_Decoded _ _ Hdec). simpl.
  destruct (strip text) as [|c r] eqn:Hstrip.
  - split; [discriminate |].
    intros (c & Hin & Hc).
    apply strip_nil_iff in Hstrip. rewrite forallb_forall in Hstrip.
    rewrite (Hstrip c Hin) in Hc. discriminate Hc.
  - split; [intros _ | reflexivity].
    destruct (strip_spec text) as [(p & t & Hs & _) Htrim].
    rewrite Hstrip in Hs, Htrim.
    exists c. split.
    + rewrite Hs. apply in_or_app. right. left. reflexivity.
    + destruct Htrim as [Hnil | [(c' & t' & [= <- <-] & Hc) _]]; [discriminate | exact Hc].
Qed.

(** A script that prints 5 passes the test that asks for two times two. *)
Lemma test_code_assert_passes_iff_witness :
  test_code_assert (ascii_bytes ("5" ++ nl)) 2 2 = Returned tt.
Proof.
  refine (proj2 (test_code_assert_passes_iff (ascii_bytes ("5" ++ nl)) 2 2
                   (lit ("5" ++ nl)) eq_refl) _).
  exists 53. split; [left; reflexivity | reflexivity].
Defined.
